(** * Event listing application: normalisation, pre-save hook, handlers

    A shallow embedding of [src/database/event.model.ts] and
    [src/app/api/event/route.ts].

    JavaScript strings are sequences of UTF-16 code units; a code unit is
    a value of [N].  String literals of the source are written with [js],
    which maps every character of a Rocq string to its code. *)

From Stdlib Require Import String Ascii List NArith ZArith Bool Lia.
Import ListNotations.

Set Implicit Arguments.

(* ================================================================= *)
(** ** The fragment of the JavaScript runtime the sources rely on *)

Module JS.

Definition jsstring := list N.

Definition js (s : string) : jsstring :=
  map N_of_ascii (list_ascii_of_string s).

(** Thrown values.  [EError] is [new Error(message)]; [TypeError] is what
    the runtime raises on a property access on [undefined]; the other
    constructors are the errors of the database driver. *)
Inductive exn :=
| EError (message : string)
| TypeError (message : string)
| ValidationError (errors : list (string * string))
| DuplicateKey (index : string)
| DriverError (message : string).

Inductive result (A : Type) :=
| Ok (a : A)
| Throw (e : exn).
Arguments Ok {A} a.
Arguments Throw {A} e.

Definition bind {A B} (m : result A) (k : A -> result B) : result B :=
  match m with
  | Ok a => k a
  | Throw e => Throw e
  end.

(** [try { body } catch (err) { handler(err) }] *)
Definition try_catch {A} (body : result A) (handler : exn -> result A)
  : result A :=
  match body with
  | Ok a => Ok a
  | Throw e => handler e
  end.

(** ** Characters *)

Definition hyphen : N := 45.
Definition colon : N := 58.
Definition zero : N := 48.

(** [\d] *)
Definition is_digit (c : N) : bool := ((48 <=? c) && (c <=? 57))%N.

(** [[a-z0-9]] *)
Definition is_lower_alnum (c : N) : bool :=
  (((97 <=? c) && (c <=? 122)) || is_digit c)%N.

(** [[^a-z0-9]] *)
Definition not_lower_alnum (c : N) : bool := negb (is_lower_alnum c).

Definition is_hyphen (c : N) : bool := (c =? hyphen)%N.

(** WhiteSpace and LineTerminator of ECMAScript: what [trim] strips and
    what [\s] matches. *)
Definition is_space (c : N) : bool :=
  (((9 <=? c) && (c <=? 13)) || (c =? 32) || (c =? 160) || (c =? 5760)
   || ((8192 <=? c) && (c <=? 8202)) || (c =? 8232) || (c =? 8233)
   || (c =? 8239) || (c =? 8287) || (c =? 12288) || (c =? 65279))%N.

(** ** String methods *)

Fixpoint dropWhile (p : N -> bool) (s : jsstring) : jsstring :=
  match s with
  | [] => []
  | c :: s' => if p c then dropWhile p s' else s
  end.

Definition dropWhileEnd (p : N -> bool) (s : jsstring) : jsstring :=
  rev (dropWhile p (rev s)).

(** [String.prototype.trim] *)
Definition trim (s : jsstring) : jsstring :=
  dropWhileEnd is_space (dropWhile is_space s).

(** [String.prototype.toLowerCase], one code unit at a time.  ASCII and
    Latin-1 capitals move down by 32; U+0130 becomes [i] followed by
    U+0307 and the Kelvin sign U+212A becomes [k]: these are the only
    code units outside ASCII whose lower case contains an ASCII
    character.  Every other code unit maps to code units outside ASCII
    and is kept as it is: no pattern of the sources tells two
    non-ASCII, non-space code units apart. *)
Definition lower_unit (c : N) : jsstring :=
  (if (65 <=? c) && (c <=? 90) then [c + 32]
   else if (192 <=? c) && (c <=? 222) && negb (c =? 215) then [c + 32]
   else if c =? 304 then [105; 775]
   else if c =? 8490 then [107]
   else [c])%N.

Definition toLowerCase (s : jsstring) : jsstring := flat_map lower_unit s.

(** [String.prototype.includes] *)
Fixpoint starts_with (sub s : jsstring) : bool :=
  match sub, s with
  | [], _ => true
  | _ :: _, [] => false
  | a :: sub', b :: s' => (a =? b)%N && starts_with sub' s'
  end.

Fixpoint includes (s sub : jsstring) : bool :=
  starts_with sub s ||
  match s with
  | [] => false
  | _ :: s' => includes s' sub
  end.

(** ** Global replacement of runs

    [s.replace(/C{min,}/g, rep)] for a character class [C]: the scanner
    gathers a maximal run of class characters in [run]; when the run
    ends it is replaced by [rep] if it has at least [min] characters and
    copied otherwise (the pattern matches nowhere inside a shorter
    run). *)
Definition flush (min : nat) (rep run : jsstring) : jsstring :=
  match run with
  | [] => []
  | _ :: _ => if (min <=? length run)%nat then rep else run
  end.

Fixpoint scan (p : N -> bool) (min : nat) (rep run s : jsstring)
  : jsstring :=
  match s with
  | [] => flush min rep run
  | c :: s' =>
      if p c then scan p min rep (run ++ [c]) s'
      else flush min rep run ++ c :: scan p min rep [] s'
  end.

Definition replace_runs (p : N -> bool) (min : nat) (rep s : jsstring)
  : jsstring :=
  scan p min rep [] s.

(** [s.replace(/^C+|C+$/g, '')]: the first alternative matches the
    leading run only (no [m] flag), the second the trailing run. *)
Definition strip_edges (p : N -> bool) (s : jsstring) : jsstring :=
  dropWhileEnd p (dropWhile p s).

(** ** Numbers and digits *)

(** [parseInt(ds, 10)] on a string of decimal digits. *)
Definition parseInt10 (ds : jsstring) : N :=
  fold_left (fun acc d => (10 * acc + (d - 48))%N) ds 0%N.

Definition digit_char (n : N) : N := (48 + n mod 10)%N.

(** [String(n)] for a non-negative integer. *)
Fixpoint digits_fuel (fuel : nat) (n : N) (acc : jsstring) : jsstring :=
  match fuel with
  | O => acc
  | S fuel' =>
      if (n <? 10)%N then digit_char n :: acc
      else digits_fuel fuel' (n / 10)%N (digit_char n :: acc)
  end.

Definition String_of_N (n : N) : jsstring :=
  digits_fuel (S (N.to_nat (N.log2 n))) n [].

(** [String(z)] for an integer. *)
Definition String_of_Z (z : Z) : jsstring :=
  match z with
  | Zneg p => hyphen :: String_of_N (Npos p)
  | _ => String_of_N (Z.to_N z)
  end.

(** [a === b] on strings *)
Fixpoint str_eqb (a b : jsstring) : bool :=
  match a, b with
  | [], [] => true
  | x :: a', y :: b' => (x =? y)%N && str_eqb a' b'
  | _, _ => false
  end.

(** [s.padStart(width, '0')] *)
Definition padStart0 (width : nat) (s : jsstring) : jsstring :=
  repeat zero (width - length s) ++ s.

(** ** Dates

    A time value is a number of milliseconds since the epoch, in UTC.
    The calendar fields are those of the proleptic Gregorian calendar
    (ECMAScript's YearFromTime, MonthFromTime and DateFromTime), here
    computed by era of 400 years. *)
Definition msPerDay : Z := 86400000.

Definition Day (t : Z) : Z := (t / msPerDay)%Z.

Section Civil.
Local Open Scope Z_scope.

Definition day_of_era (day : Z) : Z := (day + 719468) mod 146097.
Definition era (day : Z) : Z := (day + 719468) / 146097.

Definition year_of_era (doe : Z) : Z :=
  (doe - doe / 1460 + doe / 36524 - doe / 146096) / 365.

Definition day_of_year (doe : Z) : Z :=
  let yoe := year_of_era doe in
  doe - (365 * yoe + yoe / 4 - yoe / 100).

(** Months counted from March, 0 to 11. *)
Definition month_from_march (doe : Z) : Z := (5 * day_of_year doe + 2) / 153.

Definition civil_day (doe : Z) : Z :=
  day_of_year doe - (153 * month_from_march doe + 2) / 5 + 1.

Definition civil_month (doe : Z) : Z :=
  let mp := month_from_march doe in
  if mp <? 10 then mp + 3 else mp - 9.

Definition getUTCFullYear (t : Z) : Z :=
  let doe := day_of_era (Day t) in
  let y := year_of_era doe + era (Day t) * 400 in
  if civil_month doe <=? 2 then y + 1 else y.

(** 0 for January *)
Definition getUTCMonth (t : Z) : Z := civil_month (day_of_era (Day t)) - 1.

Definition getUTCDate (t : Z) : Z := civil_day (day_of_era (Day t)).
End Civil.

End JS.

Import JS.

(* ================================================================= *)
(** ** src/database/event.model.ts: the normalisers *)

(** [slugify], lines 29-36 *)
Definition slugify (input : jsstring) : jsstring :=
  replace_runs is_hyphen 2 (js "-")
    (strip_edges is_hyphen
       (replace_runs not_lower_alnum 1 (js "-")
          (trim (toLowerCase input)))).

(** [normalizeDate], lines 42-52.  [Date_parse] is the date parser of the
    host: the time value of [new Date(s)], [None] when it is [NaN]. *)
Definition normalizeDate (Date_parse : jsstring -> option Z) (value : jsstring)
  : result jsstring :=
  let trimmed := trim value in
  match Date_parse trimmed with
  | None => Throw (EError "Invalid date format")
  | Some d =>
      let year := getUTCFullYear d in
      let month := padStart0 2 (String_of_Z (getUTCMonth d + 1)) in
      let day := padStart0 2 (String_of_Z (getUTCDate d)) in
      Ok (String_of_Z year ++ js "-" ++ month ++ js "-" ++ day)
  end.

(** [(?::\d{2})?$]: nothing more, or a colon and two digits, up to the end
    of the input. *)
Definition seconds_part (s : jsstring) : bool :=
  match s with
  | [] => true
  | [c; s1; s2] => (c =? colon)%N && is_digit s1 && is_digit s2
  | _ => false
  end.

(** The groups captured by [/^(\d{1,2}):(\d{2})(?::\d{2})?$/] when the hour
    group takes [k] digits. *)
Definition match_colon_at (k : nat) (v : jsstring)
  : option (jsstring * jsstring) :=
  let h := firstn k v in
  if (length h =? k)%nat && forallb is_digit h then
    match skipn k v with
    | c :: m1 :: m2 :: tl =>
        if (c =? colon)%N && is_digit m1 && is_digit m2 && seconds_part tl
        then Some (h, [m1; m2])
        else None
    | _ => None
    end
  else None.

(** The quantifier is greedy: two digits are tried before one. *)
Definition match_colon (v : jsstring) : option (jsstring * jsstring) :=
  match match_colon_at 2 v with
  | Some g => Some g
  | None => match_colon_at 1 v
  end.

(** The groups captured by [/^(\d{1,2})\s*(am|pm)$/] ([spaces = true]) and
    by [/^(\d{1,2})(am|pm)$/] ([spaces = false]). *)
Definition match_ampm_at (spaces : bool) (k : nat) (v : jsstring)
  : option (jsstring * jsstring) :=
  let h := firstn k v in
  if (length h =? k)%nat && forallb is_digit h then
    let rest := if spaces then dropWhile is_space (skipn k v) else skipn k v in
    if str_eqb rest (js "am") then Some (h, js "am")
    else if str_eqb rest (js "pm") then Some (h, js "pm")
    else None
  else None.

Definition match_ampm_re (spaces : bool) (v : jsstring)
  : option (jsstring * jsstring) :=
  match match_ampm_at spaces 2 v with
  | Some g => Some g
  | None => match_ampm_at spaces 1 v
  end.

(** [v.match(/^(\d{1,2})\s*(am|pm)$/) || v.match(/^(\d{1,2})(am|pm)$/)] *)
Definition match_ampm (v : jsstring) : option (jsstring * jsstring) :=
  match match_ampm_re true v with
  | Some g => Some g
  | None => match_ampm_re false v
  end.

(** [normalizeTime], lines 58-82 *)
Definition normalizeTime (value : jsstring) : result jsstring :=
  let v := toLowerCase (trim value) in
  match match_colon v with
  | Some (c1, c2) =>
      let h := parseInt10 c1 in
      let m := parseInt10 c2 in
      if ((h <? 0) || (23 <? h) || (m <? 0) || (59 <? m))%N
      then Throw (EError "Invalid time value")
      else Ok (padStart0 2 (String_of_N h) ++ js ":"
               ++ padStart0 2 (String_of_N m))
  | None =>
      match match_ampm v with
      | Some (a1, suffix) =>
          let h := parseInt10 a1 in
          if ((h <? 1) || (12 <? h))%N then Throw (EError "Invalid time hour")
          else
            let h := if str_eqb suffix (js "pm") && negb (h =? 12)%N
                     then (h + 12)%N else h in
            let h := if str_eqb suffix (js "am") && (h =? 12)%N
                     then 0%N else h in
            Ok (padStart0 2 (String_of_N h) ++ js ":00")
      | None => Throw (EError "Invalid time format")
      end
  end.

(** ** The error monad of the hook and the handlers *)

Notation "x <- m ;; k" := (bind m (fun x => k))
  (at level 61, m at next level, right associativity).

(** [err.message].  For a validation error the driver joins the messages
    of the failing paths. *)
Definition validation_message (errors : list (string * string)) : string :=
  ("Event validation failed: " ++
   String.concat ", " (map (fun pm => fst pm ++ ": " ++ snd pm) errors))%string.

Definition message_of (e : exn) : string :=
  match e with
  | EError m => m
  | TypeError m => m
  | ValidationError errors => validation_message errors
  | DuplicateKey index => ("E11000 duplicate key error index: " ++ index)%string
  | DriverError m => m
  end.

(** ** The Event document, lines 6-23

    A path holds a string (an array of strings for [agenda] and [tags]) or
    is [undefined], which is [None]. *)
Record IEvent := {
  title : option jsstring;
  slug : option jsstring;
  description : option jsstring;
  overview : option jsstring;
  image : option jsstring;
  venue : option jsstring;
  location : option jsstring;
  date : option jsstring;
  time : option jsstring;
  mode : option jsstring;
  audience : option jsstring;
  agenda : option (list jsstring);
  organizer : option jsstring;
  tags : option (list jsstring)
}.

Definition with_slug (e : IEvent) (v : option jsstring) : IEvent :=
  {| title := title e; slug := v; description := description e;
     overview := overview e; image := image e; venue := venue e;
     location := location e; date := date e; time := time e;
     mode := mode e; audience := audience e; agenda := agenda e;
     organizer := organizer e; tags := tags e |}.

Definition with_date (e : IEvent) (v : option jsstring) : IEvent :=
  {| title := title e; slug := slug e; description := description e;
     overview := overview e; image := image e; venue := venue e;
     location := location e; date := v; time := time e; mode := mode e;
     audience := audience e; agenda := agenda e; organizer := organizer e;
     tags := tags e |}.

Definition with_time (e : IEvent) (v : option jsstring) : IEvent :=
  {| title := title e; slug := slug e; description := description e;
     overview := overview e; image := image e; venue := venue e;
     location := location e; date := date e; time := v; mode := mode e;
     audience := audience e; agenda := agenda e; organizer := organizer e;
     tags := tags e |}.

Definition with_agenda (e : IEvent) (v : option (list jsstring)) : IEvent :=
  {| title := title e; slug := slug e; description := description e;
     overview := overview e; image := image e; venue := venue e;
     location := location e; date := date e; time := time e;
     mode := mode e; audience := audience e; agenda := v;
     organizer := organizer e; tags := tags e |}.

Definition with_tags (e : IEvent) (v : option (list jsstring)) : IEvent :=
  {| title := title e; slug := slug e; description := description e;
     overview := overview e; image := image e; venue := venue e;
     location := location e; date := date e; time := time e;
     mode := mode e; audience := audience e; agenda := agenda e;
     organizer := organizer e; tags := v |}.

(** A document in memory: its paths and the state behind
    [this.isModified].  The hook asks [isModified] of [title], [date] and
    [time] only, each before it assigns to any of the three, so its own
    assignments need not be recorded. *)
Record EventDocument := {
  paths : IEvent;
  modifiedPaths : list string
}.

Definition isModified (this : EventDocument) (path : string) : bool :=
  existsb (String.eqb path) (modifiedPaths this).

Definition assign (this : EventDocument) (e : IEvent) : EventDocument :=
  {| paths := e; modifiedPaths := modifiedPaths this |}.

(** [this[key]] for the keys that hold strings; [None] when the value is
    not a string. *)
Definition get_string (e : IEvent) (key : string) : option jsstring :=
  if String.eqb key "title" then title e
  else if String.eqb key "slug" then slug e
  else if String.eqb key "description" then description e
  else if String.eqb key "overview" then overview e
  else if String.eqb key "image" then image e
  else if String.eqb key "venue" then venue e
  else if String.eqb key "location" then location e
  else if String.eqb key "date" then date e
  else if String.eqb key "time" then time e
  else if String.eqb key "mode" then mode e
  else if String.eqb key "audience" then audience e
  else if String.eqb key "organizer" then organizer e
  else None.

(** ** Validators, lines 87-95 *)

Definition nonEmptyString (v : option jsstring) : bool :=
  match v with
  | Some s => (0 <? length (trim s))%nat
  | None => false
  end.

Definition arrayOfNonEmptyStrings (arr : option (list jsstring)) : bool :=
  match arr with
  | None => false
  | Some a =>
      (0 <? length a)%nat && forallb (fun v => (0 <? length (trim v))%nat) a
  end.

(** ** The pre-save hook, lines 206-260 *)

Definition dquote : string := String (ascii_of_nat 34) EmptyString.

Definition field_required (key : string) : string :=
  ("Field " ++ dquote ++ key ++ dquote ++
   " is required and cannot be empty")%string.

Definition requiredStrings : list string :=
  ["title"; "description"; "overview"; "image"; "venue"; "location";
   "date"; "time"; "mode"; "audience"; "organizer"]%string.

(** A call [f(this.path)] of a function that starts with a method call on
    its argument: a [TypeError] when the path is [undefined]. *)
Definition call_on {A} (method : string) (f : jsstring -> result A)
  (arg : option jsstring) : result A :=
  match arg with
  | Some s => f s
  | None =>
      Throw (TypeError ("Cannot read properties of undefined (reading '"
                        ++ method ++ "')")%string)
  end.

(** [!this.slug] *)
Definition falsy (v : option jsstring) : bool :=
  match v with
  | None => true
  | Some s => (length s =? 0)%nat
  end.

(** [arr.map((s) => s.trim()).filter((s) => s.length > 0)] *)
Definition clean_entries (arr : list jsstring) : list jsstring :=
  filter (fun s => (0 <? length s)%nat) (map trim arr).

(** [!Array.isArray(arr) || arr.length === 0] *)
Definition empty_array (arr : option (list jsstring)) : bool :=
  match arr with
  | Some a => (length a =? 0)%nat
  | None => true
  end.

Section Hook.
Variable Date_parse : jsstring -> option Z.

(** Lines 208-226: slug, date, time, then the two arrays. *)
Definition normalise (this : EventDocument) : result EventDocument :=
  this <- (if isModified this "title" || falsy (slug (paths this))
           then s <- call_on "toLowerCase" (fun t => Ok (slugify t))
                       (title (paths this)) ;;
                Ok (assign this (with_slug (paths this) (Some s)))
           else Ok this) ;;
  this <- (if isModified this "date"
           then d <- call_on "trim" (normalizeDate Date_parse)
                       (date (paths this)) ;;
                Ok (assign this (with_date (paths this) (Some d)))
           else Ok this) ;;
  this <- (if isModified this "time"
           then t <- call_on "trim" normalizeTime (time (paths this)) ;;
                Ok (assign this (with_time (paths this) (Some t)))
           else Ok this) ;;
  let this := match agenda (paths this) with
              | Some a =>
                  assign this (with_agenda (paths this) (Some (clean_entries a)))
              | None => this
              end in
  let this := match tags (paths this) with
              | Some a =>
                  assign this (with_tags (paths this) (Some (clean_entries a)))
              | None => this
              end in
  Ok this.

(** Lines 242-247: the loop over [requiredStrings]. *)
Fixpoint check_required (e : IEvent) (keys : list string) : result unit :=
  match keys with
  | [] => Ok tt
  | key :: rest =>
      match get_string e key with
      | Some val =>
          if (length (trim val) =? 0)%nat
          then Throw (EError (field_required key))
          else check_required e rest
      | None => Throw (EError (field_required key))
      end
  end.

(** Lines 229-255 *)
Definition recheck (this : EventDocument) : result unit :=
  _ <- check_required (paths this) requiredStrings ;;
  _ <- (if empty_array (agenda (paths this))
        then Throw (EError "Agenda is required and cannot be empty")
        else Ok tt) ;;
  if empty_array (tags (paths this))
  then Throw (EError "Tags are required and cannot be empty")
  else Ok tt.

Definition pre_save (this : EventDocument) : result EventDocument :=
  try_catch
    (this <- normalise this ;;
     _ <- recheck this ;;
     Ok this)
    (fun err => Throw (EError (message_of err))).
End Hook.

(** ** The schema, lines 97-197, and the driver's save

    What the driver does with the schema is taken from its documentation:
    constructing a document runs the setters of the paths ([trim: true],
    the [set] of the two arrays; an array path that is not given holds
    its default, the empty array) and sets the given paths in the order
    of the schema; [save] validates the document first and runs the
    [pre('save')] hooks of the schema after that, then writes; a path
    fails on its first failing validator, [required] before [validate];
    [required] refuses a missing value and the empty string, but not the
    empty array; the required paths that were never set are validated
    first, the paths that were set after them, the paths that hold a
    default last. *)

Definition cast_string (v : option jsstring) : option jsstring :=
  option_map trim v.

(** [set: (v) => (Array.isArray(v) ? v.map((s) => s.trim()) : v)] *)
Definition array_set (v : option (list jsstring)) : option (list jsstring) :=
  match v with
  | Some a => Some (map trim a)
  | None => Some []
  end.

Definition present {A} (name : string) (v : option A) : list string :=
  match v with
  | Some _ => [name]
  | None => []
  end.

(** [new Event(data)] *)
Definition new_Event (data : IEvent) : EventDocument :=
  {| paths :=
       {| title := cast_string (title data);
          slug := cast_string (slug data);
          description := cast_string (description data);
          overview := cast_string (overview data);
          image := cast_string (image data);
          venue := cast_string (venue data);
          location := cast_string (location data);
          date := cast_string (date data);
          time := cast_string (time data);
          mode := cast_string (mode data);
          audience := cast_string (audience data);
          agenda := array_set (agenda data);
          organizer := cast_string (organizer data);
          tags := array_set (tags data) |};
     modifiedPaths :=
       present "title" (title data) ++ present "slug" (slug data)
       ++ present "description" (description data)
       ++ present "overview" (overview data) ++ present "image" (image data)
       ++ present "venue" (venue data) ++ present "location" (location data)
       ++ present "date" (date data) ++ present "time" (time data)
       ++ present "mode" (mode data) ++ present "audience" (audience data)
       ++ present "agenda" (agenda data)
       ++ present "organizer" (organizer data) ++ present "tags" (tags data)
  |}.

Definition path_required (path : string) : string :=
  ("Path `" ++ path ++ "` is required.")%string.

(** [required: true] with [validate: { validator: nonEmptyString, message }] *)
Definition validate_string (path message : string) (v : option jsstring)
  : list (string * string) :=
  if falsy v then [(path, path_required path)]
  else if nonEmptyString v then []
  else [(path, message)].

(** [required: true] with [validate: { validator: arrayOfNonEmptyStrings,
    message }]: an array, empty or not, passes [required]. *)
Definition validate_array (path message : string)
  (v : option (list jsstring)) : list (string * string) :=
  match v with
  | None => [(path, path_required path)]
  | Some _ => if arrayOfNonEmptyStrings v then [] else [(path, message)]
  end.

(** A path with validators: its name, whether the schema type gives it a
    default, and the error it fails with, if it fails. *)
Record ValidatedPath := {
  path_name : string;
  has_default : bool;
  path_errors : list (string * string)
}.

Definition string_path (path message : string) (v : option jsstring)
  : ValidatedPath :=
  {| path_name := path; has_default := false;
     path_errors := validate_string path message v |}.

Definition array_path (path message : string) (v : option (list jsstring))
  : ValidatedPath :=
  {| path_name := path; has_default := true;
     path_errors := validate_array path message v |}.

(** The paths of the schema that carry validators, in the order of the
    schema; [slug] carries none. *)
Definition validated_paths (e : IEvent) : list ValidatedPath :=
  [ string_path "title" "Title cannot be empty" (title e);
    string_path "description" "Description cannot be empty" (description e);
    string_path "overview" "Overview cannot be empty" (overview e);
    string_path "image" "Image cannot be empty" (image e);
    string_path "venue" "Venue cannot be empty" (venue e);
    string_path "location" "Location cannot be empty" (location e);
    string_path "date" "Date cannot be empty" (date e);
    string_path "time" "Time cannot be empty" (time e);
    string_path "mode" "Mode cannot be empty" (mode e);
    string_path "audience" "Audience cannot be empty" (audience e);
    array_path "agenda" "Agenda must be a non-empty array of strings" (agenda e);
    string_path "organizer" "Organizer cannot be empty" (organizer e);
    array_path "tags" "Tags must be a non-empty array of strings" (tags e) ].

(** The state in which the driver keeps a path of a document. *)
Inductive PathState := StateRequire | StateModify | StateDefault.

Definition state_of (this : EventDocument) (p : ValidatedPath) : PathState :=
  if isModified this (path_name p) then StateModify
  else if has_default p then StateDefault
  else StateRequire.

Definition same_state (a b : PathState) : bool :=
  match a, b with
  | StateRequire, StateRequire => true
  | StateModify, StateModify => true
  | StateDefault, StateDefault => true
  | _, _ => false
  end.

Definition errors_in (st : PathState) (this : EventDocument)
  : list (string * string) :=
  flat_map path_errors
    (filter (fun p => same_state (state_of this p) st)
       (validated_paths (paths this))).

(** The entries of the validation error, in the order in which the
    driver validates the paths. *)
Definition validation_errors (this : EventDocument) : list (string * string) :=
  errors_in StateRequire this ++ errors_in StateModify this
  ++ errors_in StateDefault this.

Definition validate (this : EventDocument) : result unit :=
  match validation_errors this with
  | [] => Ok tt
  | errors => Throw (ValidationError errors)
  end.

Definition same_slug (a b : option jsstring) : bool :=
  match a, b with
  | Some x, Some y => str_eqb x y
  | None, None => true
  | _, _ => false
  end.

(** The write itself.  [fault] is a failure of the server or of the
    network during the operation, if there is one.  [unique_slug] tells
    whether the collection carries the unique index on [slug] that the
    schema declares (lines 105-110 and 197): the server refuses a second
    document with the same slug only when the index has been built. *)
Definition insertOne (fault : option exn) (unique_slug : bool) (e : IEvent)
  (events : list IEvent) : result IEvent * list IEvent :=
  match fault with
  | Some err => (Throw err, events)
  | None =>
      if unique_slug && existsb (fun x => same_slug (slug x) (slug e)) events
      then (Throw (DuplicateKey "slug_1"), events)
      else (Ok e, events ++ [e])
  end.

Section Model.
Variable Date_parse : jsstring -> option Z.
Variable fault : option exn.
Variable unique_slug : bool.

Definition save (this : EventDocument) (events : list IEvent)
  : result IEvent * list IEvent :=
  match validate this with
  | Throw err => (Throw err, events)
  | Ok _ =>
      match pre_save Date_parse this with
      | Throw err => (Throw err, events)
      | Ok this => insertOne fault unique_slug (paths this) events
      end
  end.

(** [Event.create(data)] *)
Definition Event_create (data : IEvent) (events : list IEvent)
  : result IEvent * list IEvent :=
  save (new_Event data) events.

(** [Event.findOne({ slug })] *)
Definition Event_findOne (param : jsstring) (events : list IEvent)
  : result (option IEvent) :=
  match fault with
  | Some err => Throw err
  | None => Ok (find (fun x => same_slug (slug x) (Some param)) events)
  end.

(** [Event.find().populate('bookings')].  The schema declares no path
    [bookings] and nothing in the code relaxes [strictPopulate]: the
    driver runs the query, then populates the documents it found and
    refuses the path on the first of them; when the query finds no
    document there is nothing to populate and the empty array comes
    back. *)
Definition Event_find_populate (events : list IEvent) : result (list IEvent) :=
  match fault with
  | Some err => Throw err
  | None =>
      match events with
      | [] => Ok []
      | _ :: _ =>
          Throw (DriverError
            ("Cannot populate path `bookings` because it is not in your schema."
             ++ " Set the `strictPopulate` option to false to override.")%string)
      end
  end.
End Model.

(** ** The connection manager, lines 264-343

    [mongoose.connect] returns a promise.  Promises live in a heap,
    [promises], and are named by their index: the cache and every caller
    suspended at the [await] hold such a name, so two holders of one name
    share one attempt.  A call of [mongoose.connect] allocates one promise:
    the length of the heap counts the connection attempts of the process. *)
Module Mongodb.

(** The identity of a connection handle. *)
Definition Mongoose := N.

Inductive promise_state :=
| Pending
| Fulfilled (m : Mongoose)
| Rejected (e : exn).

Record MongooseCache := {
  conn : option Mongoose;
  promise : option nat
}.

Record Connection := {
  cached : MongooseCache;
  promises : list promise_state
}.

(** Lines 278-281 and 305-306: loading the module. *)
Definition load (MONGODB_URI : option jsstring)
  (global : option MongooseCache) : result Connection :=
  if falsy MONGODB_URI
  then Throw (EError "Missing environment variable: MONGODB_URI")
  else Ok {| cached := match global with
                       | Some c => c
                       | None => {| conn := None; promise := None |}
                       end;
             promises := [] |}.

(** Lines 323-338: the promise the caller is going to await. *)
Definition ensure_promise (k : Connection) : Connection * nat :=
  match promise (cached k) with
  | Some pid => (k, pid)
  | None =>
      let pid := length (promises k) in
      ({| cached := {| conn := conn (cached k); promise := Some pid |};
          promises := promises k ++ [Pending] |}, pid)
  end.

Fixpoint update (pid : nat) (st : promise_state) (l : list promise_state)
  : list promise_state :=
  match l, pid with
  | [], _ => []
  | _ :: l', O => st :: l'
  | x :: l', S pid' => x :: update pid' st l'
  end.

Definition settled (outcome : result Mongoose) : promise_state :=
  match outcome with
  | Ok m => Fulfilled m
  | Throw e => Rejected e
  end.

(** The attempt [pid] completes.  A settled promise stays as it is. *)
Definition settle (pid : nat) (outcome : result Mongoose) (k : Connection)
  : Connection :=
  match nth_error (promises k) pid with
  | Some Pending =>
      {| cached := cached k;
         promises := update pid (settled outcome) (promises k) |}
  | _ => k
  end.

(** Line 341: [cached.conn = ...] *)
Definition store_conn (m : Mongoose) (k : Connection) : Connection :=
  {| cached := {| conn := Some m; promise := promise (cached k) |};
     promises := promises k |}.

(** A process: the shared state, the callers suspended at the [await]
    with the promise each one awaits, and what has been returned or
    thrown so far to which caller. *)
Record Process := {
  mem : Connection;
  awaiting : list (nat * nat);
  returned : list (nat * result Mongoose)
}.

Definition start (k : Connection) : Process :=
  {| mem := k; awaiting := []; returned := [] |}.

(** The steps of the event loop.  A call runs up to its [await] without
    interruption; a promise settles; a suspended caller resumes. *)
Inductive step : Process -> Process -> Prop :=
| step_hit c m p :
    conn (cached (mem p)) = Some m ->
    step p {| mem := mem p; awaiting := awaiting p;
              returned := (c, Ok m) :: returned p |}
| step_miss c p :
    conn (cached (mem p)) = None ->
    step p {| mem := fst (ensure_promise (mem p));
              awaiting := (c, snd (ensure_promise (mem p))) :: awaiting p;
              returned := returned p |}
| step_settle pid outcome p :
    nth_error (promises (mem p)) pid = Some Pending ->
    step p {| mem := settle pid outcome (mem p); awaiting := awaiting p;
              returned := returned p |}
| step_resume c pid m l1 l2 p :
    awaiting p = l1 ++ (c, pid) :: l2 ->
    nth_error (promises (mem p)) pid = Some (Fulfilled m) ->
    step p {| mem := store_conn m (mem p); awaiting := l1 ++ l2;
              returned := (c, Ok m) :: returned p |}
| step_reject c pid e l1 l2 p :
    awaiting p = l1 ++ (c, pid) :: l2 ->
    nth_error (promises (mem p)) pid = Some (Rejected e) ->
    step p {| mem := mem p; awaiting := l1 ++ l2;
              returned := (c, Throw e) :: returned p |}.

Inductive steps : Process -> Process -> Prop :=
| steps_refl p : steps p p
| steps_next p q r : steps p q -> step q r -> steps p r.

(** [await connectToDatabase()] where nothing else runs in between:
    [outcome] is how the attempt ends if this call waits for a pending
    one. *)
Definition connectToDatabase (outcome : result Mongoose) (k : Connection)
  : result Mongoose * Connection :=
  match conn (cached k) with
  | Some m => (Ok m, k)
  | None =>
      let (k1, pid) := ensure_promise k in
      let k2 := settle pid outcome k1 in
      match nth_error (promises k2) pid with
      | Some (Fulfilled m) => (Ok m, store_conn m k2)
      | Some (Rejected e) => (Throw e, k2)
      | _ => (Throw (DriverError "the promise never settles"), k2)
      end
  end.

(** What holds of a process all along: one promise at most, named 0;
    the cache and every suspended caller hold that name; a handle in the
    cache or in the hands of a caller is the one the promise was
    fulfilled with. *)
Definition invariant (p : Process) : Prop :=
  match promise (cached (mem p)) with
  | None => promises (mem p) = [] /\ awaiting p = []
  | Some pid => pid = 0%nat /\ length (promises (mem p)) = 1%nat
  end
  /\ (forall c pid, In (c, pid) (awaiting p) -> pid = 0%nat)
  /\ (forall m, conn (cached (mem p)) = Some m ->
        promises (mem p) = [Fulfilled m])
  /\ (forall c m, In (c, Ok m) (returned p) ->
        conn (cached (mem p)) = Some m).

End Mongodb.

(** ** src/app/api/event/route.ts and the handler of [/api/event/{slug}]

    A request carries one event record, as JSON or as form fields. *)

Record NextRequest := {
  (** [request.headers.get("content-type")], [None] for [null] *)
  content_type : option jsstring;
  (** what [request.json()] resolves to, or throws *)
  json : result IEvent;
  (** what [Object.fromEntries((await request.formData()).entries())]
      gives, or what [request.formData()] throws *)
  formData : result IEvent
}.

Inductive Body :=
| Events (events : list IEvent)
| OneEvent (event : IEvent)
| ErrorBody (error : string)
| Created (message : string) (event : IEvent)
| InvalidForm (message error : string)
| Unsupported (message : string) (supported : list string)
| Internal (message error : string).

Record Response := {
  status : N;
  body : Body
}.

(** What a handler meets outside the process.  The driver builds the
    indexes of the schema after connecting when [autoIndex] is on, and
    line 330 turns it on only when [NODE_ENV] is not [production]:
    whether the index on [slug] is there is a fact about the database,
    [slug_index]. *)
Record Env := {
  Date_parse : jsstring -> option Z;
  connect_outcome : result Mongodb.Mongoose;
  fault : option exn;
  slug_index : bool
}.

Record World := {
  connection : Mongodb.Connection;
  events : list IEvent
}.

(** [contentType = request.headers.get("content-type") || ""] *)
Definition header_or_empty (h : option jsstring) : jsstring :=
  match h with
  | Some s => s
  | None => []
  end.

Inductive Outcome (A : Type) :=
| Return (r : Response)
| Value (a : A).
Arguments Return {A} r.
Arguments Value {A} a.

Section Handlers.
Variable env : Env.

(** Lines 90-127 of [POST]: the body by content type, or the answer that
    ends the request. *)
Definition read_body (request : NextRequest) : result (Outcome IEvent) :=
  let contentType := header_or_empty (content_type request) in
  if includes contentType (js "application/json") then
    data <- json request ;;
    Ok (Value data)
  else if includes contentType (js "multipart/form-data") then
    match formData request with
    | Throw err =>
        Ok (Return {| status := 400;
                      body := InvalidForm "Invalid form-data" (message_of err) |})
    | Ok data => Ok (Value data)
    end
  else
    Ok (Return {| status := 415;
                  body := Unsupported "Unsupported Content-Type"
                            ["application/json"; "multipart/form-data"]%string |}).

Definition internal_error (err : exn) : Response :=
  {| status := 500; body := Internal "Internal server error" (message_of err) |}.

(** [POST], lines 86-147 (and the same text at lines 5-66) *)
Definition POST (request : NextRequest) (w : World) : Response * World :=
  let (connected, k) :=
    Mongodb.connectToDatabase (connect_outcome env) (connection w) in
  match connected with
  | Throw err => (internal_error err, {| connection := k; events := events w |})
  | Ok _ =>
      match read_body request with
      | Throw err =>
          (internal_error err, {| connection := k; events := events w |})
      | Ok (Return r) => (r, {| connection := k; events := events w |})
      | Ok (Value data) =>
          let (created, evs) :=
            Event_create (Date_parse env) (fault env) (slug_index env) data
              (events w) in
          match created with
          | Ok createdEvent =>
              ({| status := 201;
                  body := Created "Event created successfully" createdEvent |},
               {| connection := k; events := evs |})
          | Throw err =>
              (internal_error err, {| connection := k; events := evs |})
          end
      end
  end.

(** [GET], lines 73-82: all events *)
Definition GET (w : World) : Response * World :=
  let (connected, k) :=
    Mongodb.connectToDatabase (connect_outcome env) (connection w) in
  let w' := {| connection := k; events := events w |} in
  match (_ <- connected ;;
         Event_find_populate (fault env) (events w)) with
  | Ok evs => ({| status := 200; body := Events evs |}, w')
  | Throw _ => ({| status := 500; body := ErrorBody "Failed to fetch events" |}, w')
  end.

(** [GET], lines 402-414 of event.model.ts: one event by its slug *)
Definition GET_slug (params_slug : jsstring) (w : World) : Response * World :=
  let (connected, k) :=
    Mongodb.connectToDatabase (connect_outcome env) (connection w) in
  let w' := {| connection := k; events := events w |} in
  match (_ <- connected ;; Event_findOne (fault env) params_slug (events w)) with
  | Ok None => ({| status := 404; body := ErrorBody "Event not found" |}, w')
  | Ok (Some event) => ({| status := 200; body := OneEvent event |}, w')
  | Throw _ => ({| status := 500; body := ErrorBody "Failed to fetch event" |}, w')
  end.
End Handlers.

(** ** A host for the date parser

    The answers of V8's parser on the strings below, in a time zone [tza]
    milliseconds ahead of UTC.  The date-only ISO form is midnight UTC,
    as the language prescribes; the two other forms have no offset and
    are read as midnight local time.  1772668800000 is
    2026-03-05T00:00:00Z. *)
Definition host_Date_parse (tza : Z) (s : jsstring) : option Z :=
  if str_eqb s (js "2026-03-05") then Some 1772668800000%Z
  else if str_eqb s (js "March 5, 2026") || str_eqb s (js "2026/03/05")
       then Some (1772668800000 - tza)%Z
  else None.

(** ** A candidate record

    A record with every path filled in, but for the slug; its description
    and its agenda vary. *)
Definition candidate (the_description : option jsstring)
  (the_agenda : option (list jsstring)) : IEvent :=
  {| title := Some (js "Cloud Next 2026");
     slug := None;
     description := the_description;
     overview := Some (js "Three days of talks");
     image := Some (js "/images/cloud-next.png");
     venue := Some (js "Hall A");
     location := Some (js "Jakarta");
     date := Some (js "2026-03-05");
     time := Some (js "9am");
     mode := Some (js "offline");
     audience := Some (js "Developers");
     agenda := the_agenda;
     organizer := Some (js "Dev Community");
     tags := Some [js "cloud"] |}.

(** The same record as a document on which no validation has run. *)
Definition candidate_document (the_description : option jsstring)
  (the_agenda : option (list jsstring)) : EventDocument :=
  {| paths := candidate the_description the_agenda;
     modifiedPaths := ["title"; "description"; "date"; "time"; "agenda";
                       "tags"]%string |}.

(** ** A process and two requests

    A process whose module has just loaded, with no event stored; a host
    on which the database answers and one on which it cannot be
    reached, both with the index on [slug] built; a request of type
    [text/plain] and one with a JSON body. *)
Definition fresh_world : World :=
  {| connection :=
       {| Mongodb.cached := {| Mongodb.conn := None; Mongodb.promise := None |};
          Mongodb.promises := [] |};
     events := [] |}.

Definition reachable_env : Env :=
  {| Date_parse := host_Date_parse 0;
     connect_outcome := Ok 1%N;
     fault := None;
     slug_index := true |}.

Definition unreachable_env : Env :=
  {| Date_parse := host_Date_parse 0;
     connect_outcome := Throw (DriverError "connect ECONNREFUSED 127.0.0.1:27017");
     fault := None;
     slug_index := true |}.

Definition text_plain_request : NextRequest :=
  {| content_type := Some (js "text/plain");
     json := Throw (EError "Unexpected token h in JSON at position 0");
     formData := Throw (TypeError "Failed to parse body as FormData.") |}.

Definition json_request (data : IEvent) : NextRequest :=
  {| content_type := Some (js "application/json; charset=utf-8");
     json := Ok data;
     formData := Throw (TypeError "Failed to parse body as FormData.") |}.

(** The body the handler passes to [Event.create]: the JSON body when the
    content type names JSON, else the form fields when it names multipart
    form data. *)
Definition Payload (request : NextRequest) (data : IEvent) : Prop :=
  let contentType := header_or_empty (content_type request) in
  (includes contentType (js "application/json") = true
   /\ json request = Ok data)
  \/ (includes contentType (js "application/json") = false
      /\ includes contentType (js "multipart/form-data") = true
      /\ formData request = Ok data).

(** Where a process stands after three calls: two of them started before
    the attempt settled with the handle 7, one after. *)
Definition after_three_calls : Mongodb.Process :=
  {| Mongodb.mem :=
       {| Mongodb.cached := {| Mongodb.conn := Some 7%N;
                               Mongodb.promise := Some 0%nat |};
          Mongodb.promises := [Mongodb.Fulfilled 7%N] |};
     Mongodb.awaiting := [];
     Mongodb.returned := [(3%nat, Ok 7%N); (1%nat, Ok 7%N); (2%nat, Ok 7%N)] |}.

(* ================================================================= *)
(** * Notions the properties are stated with *)

Definition slug_char (c : N) : Prop := is_lower_alnum c = true \/ c = hyphen.

(** No two hyphens in a row. *)
Definition NoDouble (s : jsstring) : Prop :=
  forall l1 l2, s <> l1 ++ hyphen :: hyphen :: l2.

Fixpoint no_double (s : jsstring) : Prop :=
  match s with
  | a :: (b :: _) as t => ~ (a = hyphen /\ b = hyphen) /\ no_double t
  | _ => True
  end.

Definition replacements (x : jsstring) : jsstring :=
  replace_runs is_hyphen 2 (js "-")
    (strip_edges is_hyphen (replace_runs not_lower_alnum 1 (js "-") x)).

Definition Digits (s : jsstring) : Prop := Forall (fun c => is_digit c = true) s.
Definition Spaces (s : jsstring) : Prop := Forall (fun c => is_space c = true) s.

(** Nothing, or a colon and two digits. *)
Definition Seconds (tl : jsstring) : Prop :=
  tl = [] \/ exists sec, Digits sec /\ length sec = 2%nat /\ tl = colon :: sec.

(** [H:MM], [HH:MM], [H:MM:SS] or [HH:MM:SS] with hour digits [h] and
    minute digits [m]. *)
Definition ColonShape (v h m : jsstring) : Prop :=
  Digits h /\ (length h = 1 \/ length h = 2)%nat /\
  Digits m /\ length m = 2%nat /\
  exists tl, Seconds tl /\ v = h ++ colon :: m ++ tl.

(** One or two digits [h], white space or none, then [am] or [pm]. *)
Definition AmPmShape (v h suffix : jsstring) : Prop :=
  Digits h /\ (length h = 1 \/ length h = 2)%nat /\
  (suffix = js "am" \/ suffix = js "pm") /\
  exists ws, Spaces ws /\ v = h ++ ws ++ suffix.

(** The two decimal digits of a number below 100. *)
Definition two_digits (n : N) : jsstring := [48 + n / 10; 48 + n mod 10]%N.

Definition filled (e : IEvent) (key : string) : Prop :=
  nonEmptyString (get_string e key) = true.

(** What [await connectToDatabase()] gives the handler. *)
Definition connected (env : Env) (w : World) : result Mongodb.Mongoose :=
  fst (Mongodb.connectToDatabase (connect_outcome env) (connection w)).

(** A slug: characters of [[a-z0-9-]], no hyphen at either end, no two
    hyphens in a row. *)
Definition is_slug (s : jsstring) : Prop :=
  Forall slug_char s
  /\ (forall s', s <> hyphen :: s')
  /\ (forall s', s <> s' ++ [hyphen])
  /\ NoDouble s.

(** A process whose attempt has been rejected while one caller waits, and
    the same process after that caller and a later one have resumed. *)
Definition rejected_process : Mongodb.Process :=
  {| Mongodb.mem :=
       {| Mongodb.cached := {| Mongodb.conn := None;
                               Mongodb.promise := Some 0%nat |};
          Mongodb.promises :=
            [Mongodb.Rejected (DriverError "connect ECONNREFUSED 127.0.0.1:27017")] |};
     Mongodb.awaiting := [(1%nat, 0%nat)];
     Mongodb.returned := [] |}.

Definition rejected_process_later : Mongodb.Process :=
  {| Mongodb.mem := Mongodb.mem rejected_process;
     Mongodb.awaiting := [];
     Mongodb.returned :=
       [(2%nat, Throw (DriverError "connect ECONNREFUSED 127.0.0.1:27017"));
        (1%nat, Throw (DriverError "connect ECONNREFUSED 127.0.0.1:27017"))] |}.

(** ** The listing page, lines 349-396 of event.model.ts

    The page fetches [/api/event/cloud-next-2026], which the handler of
    [/api/event/{slug}] serves, and shows one card for every element of
    the array it received. *)

(** [response.ok] *)
Definition ok (response : Response) : bool :=
  ((200 <=? status response) && (status response <=? 299))%N.

(** [let events = []; if (response.ok) { events = await response.json(); }] *)
Definition fetched_events (response : Response) : Body :=
  if ok response then body response else Events [].

(** ["title" in event]: a path that is [undefined] is left out of the
    JSON text. *)
Definition has_title (event : IEvent) : bool :=
  match title event with
  | Some _ => true
  | None => false
  end.

(** [events && Array.isArray(events) && events.map(...)]: the events that
    get a card. *)
Definition cards (events : Body) : list IEvent :=
  match events with
  | Events l => filter has_title l
  | _ => []
  end.

Definition Page (env : Env) (w : World) : list IEvent * World :=
  let (response, w') := GET_slug env (js "cloud-next-2026") w in
  (cards (fetched_events response), w').

(** ** Tactics *)

(** Decides the comparisons of the goal one after the other, dropping at
    once the branches that the bounds at hand exclude. *)
Ltac prune_tests :=
  repeat match goal with
    | |- context [N.leb ?a ?b] =>
        destruct (N.leb_spec a b); try (exfalso; lia); simpl
    | |- context [N.eqb ?a ?b] =>
        destruct (N.eqb_spec a b); try (exfalso; lia); simpl
    end.

(** Finds a path in the list of the validated paths. *)
Ltac find_path :=
  first [ left; reflexivity | right; find_path ].

(** Closes a case of the table of answers: the facts about the content
    type and the bodies at hand decide it. *)
Ltac settle_cases :=
  intros; unfold internal_error in *; simpl in *;
  repeat match goal with
    | H : _ /\ _ |- _ => destruct H
    | H : exists _, _ |- _ => destruct H
    | H : Payload _ _ |- _ => unfold Payload in H; cbv zeta in H
    | H : _ \/ _ |- _ => destruct H
    end;
  try congruence; eauto.

(* ================================================================= *)
(** * Properties *)

(** ** Sanity checks of the normalisers *)

Example slugify_hello :
  slugify (js "  Hello, World! 2026 ") = js "hello-world-2026".
Proof. reflexivity. Qed.

Example slugify_hyphens :
  slugify (js "--Cloud -- Next--") = js "cloud-next".
Proof. reflexivity. Qed.

Example slugify_symbols_only : slugify (js " ?!? ") = [].
Proof. reflexivity. Qed.

(** ** Slugs *)

Section Slug.

Lemma no_double_NoDouble s : no_double s -> NoDouble s.
Proof.
  unfold NoDouble. induction s as [|a s IH]; intros H l1 l2 E.
  - destruct l1; discriminate.
  - destruct l1 as [|x l1]; simpl in E.
    + inversion E; subst. destruct H as [H _]. apply H; auto.
    + inversion E; subst.
      destruct (l1 ++ hyphen :: hyphen :: l2) eqn:El.
      * destruct l1; discriminate.
      * destruct H as [_ H]. apply (IH H l1 l2). now rewrite El.
Qed.

Lemma NoDouble_no_double s : NoDouble s -> no_double s.
Proof.
  unfold NoDouble. induction s as [|a s IH]; intros H; simpl; auto.
  destruct s as [|b t]; auto. split.
  - intros [-> ->]. apply (H [] t). reflexivity.
  - apply IH. intros l1 l2 E. apply (H (a :: l1) l2). simpl. now rewrite E.
Qed.

Lemma NoDouble_infix pre s post : NoDouble (pre ++ s ++ post) -> NoDouble s.
Proof.
  intros H l1 l2 E. apply (H (pre ++ l1) (l2 ++ post)).
  rewrite E. repeat (rewrite <- app_assoc; simpl). reflexivity.
Qed.

(** *** Prefixes and suffixes cut by [dropWhile] *)

Lemma dropWhile_suffix p s : exists pre, s = pre ++ dropWhile p s.
Proof.
  induction s as [|c s [pre IH]]; simpl.
  - exists []. reflexivity.
  - destruct (p c).
    + exists (c :: pre). simpl. now rewrite <- IH.
    + exists []. reflexivity.
Qed.

Lemma dropWhile_head p s c s' : dropWhile p s = c :: s' -> p c = false.
Proof.
  induction s as [|a s IH]; simpl; [discriminate|].
  destruct (p a) eqn:Ea; auto. intros E. inversion E; subst. exact Ea.
Qed.

Lemma dropWhileEnd_prefix p s : exists suf, s = dropWhileEnd p s ++ suf.
Proof.
  unfold dropWhileEnd. destruct (dropWhile_suffix p (rev s)) as [pre E].
  exists (rev pre). rewrite <- rev_app_distr, <- E. now rewrite rev_involutive.
Qed.

Lemma dropWhileEnd_last p s c s' : dropWhileEnd p s = s' ++ [c] -> p c = false.
Proof.
  unfold dropWhileEnd. intros E.
  apply (f_equal (@rev N)) in E. rewrite rev_involutive, rev_app_distr in E.
  simpl in E. eapply dropWhile_head; eauto.
Qed.

Lemma strip_edges_infix p s :
  exists pre post, s = pre ++ strip_edges p s ++ post.
Proof.
  unfold strip_edges.
  destruct (dropWhile_suffix p s) as [pre E].
  destruct (dropWhileEnd_prefix p (dropWhile p s)) as [post E'].
  exists pre, post. rewrite <- E'. exact E.
Qed.

Lemma strip_edges_head p s c s' : strip_edges p s = c :: s' -> p c = false.
Proof.
  unfold strip_edges. intros E.
  destruct (dropWhileEnd_prefix p (dropWhile p s)) as [post E'].
  rewrite E in E'. simpl in E'. eapply dropWhile_head; eauto.
Qed.

(** *** The first replacement: runs outside [[a-z0-9]] *)

Lemma flush_hyphen run :
  flush 1 (js "-") run = [] \/ flush 1 (js "-") run = [hyphen].
Proof. destruct run; simpl; auto. Qed.

Lemma hyphen_slug_char : slug_char hyphen.
Proof. right; reflexivity. Qed.

Lemma scan_runs_chars s : forall run,
  Forall slug_char (scan not_lower_alnum 1 (js "-") run s).
Proof.
  induction s as [|c s IH]; intros run; simpl.
  - destruct (flush_hyphen run) as [-> | ->]; auto using hyphen_slug_char.
  - destruct (not_lower_alnum c) eqn:Ec; [apply IH|].
    apply Forall_app. split.
    + destruct (flush_hyphen run) as [-> | ->]; auto using hyphen_slug_char.
    + constructor; [|apply IH]. left.
      unfold not_lower_alnum in Ec. now destruct (is_lower_alnum c).
Qed.

Lemma no_double_cons c s : c <> hyphen -> no_double s -> no_double (c :: s).
Proof. intros Hc H. destruct s; simpl; auto. split; tauto. Qed.

Lemma scan_runs_no_double s : forall run,
  no_double (scan not_lower_alnum 1 (js "-") run s).
Proof.
  induction s as [|c s IH]; intros run; simpl.
  - destruct (flush_hyphen run) as [-> | ->]; simpl; auto.
  - destruct (not_lower_alnum c) eqn:Ec; [apply IH|].
    assert (Hc : c <> hyphen) by (intros ->; discriminate).
    destruct (flush_hyphen run) as [-> | ->]; simpl app.
    + apply no_double_cons; auto.
    + split; [tauto|]. apply no_double_cons; auto.
Qed.

(** *** The last replacement leaves such a string as it is *)

Lemma scan_collapse_id s : forall run,
  run = [] \/ run = [hyphen] ->
  no_double (run ++ s) ->
  scan is_hyphen 2 (js "-") run s = run ++ s.
Proof.
  induction s as [|c s IH]; intros run Hrun H; simpl.
  - destruct Hrun as [-> | ->]; reflexivity.
  - destruct (is_hyphen c) eqn:Ec.
    + assert (c = hyphen) by (unfold is_hyphen in Ec; now apply N.eqb_eq).
      subst c. destruct Hrun as [-> | ->].
      * simpl. rewrite IH; auto. 
      * simpl in H. tauto.
    + destruct Hrun as [-> | ->]; simpl.
      * f_equal. apply (IH []); auto. simpl in H. destruct s; simpl; tauto.
      * f_equal. f_equal. apply (IH []); auto.
        simpl in H. destruct H as [_ H]. destruct s; simpl; tauto.
Qed.

(** *** Lower case *)

Lemma lower_unit_slug_char c : slug_char c -> lower_unit c = [c].
Proof.
  intros [H | ->]; [|reflexivity].
  assert (Hc : (48 <= c <= 57 \/ 97 <= c <= 122)%N).
  { unfold is_lower_alnum, is_digit in H.
    apply orb_true_iff in H. destruct H as [H | H];
      apply andb_true_iff in H; destruct H as [H1 H2];
      apply N.leb_le in H1, H2; lia. }
  clear H. unfold lower_unit. prune_tests; reflexivity.
Qed.

Lemma toLowerCase_slug_chars s : Forall slug_char s -> toLowerCase s = s.
Proof.
  induction 1 as [|c s Hc _ IH]; simpl; auto.
  rewrite (lower_unit_slug_char Hc). simpl. now rewrite IH.
Qed.

(** *** The three replacements in a row *)

Lemma replacements_stripped x :
  replacements x =
  strip_edges is_hyphen (replace_runs not_lower_alnum 1 (js "-") x).
Proof.
  unfold replacements, replace_runs at 1.
  apply (scan_collapse_id _ (run := [])); auto. simpl.
  apply NoDouble_no_double.
  destruct (strip_edges_infix is_hyphen
              (replace_runs not_lower_alnum 1 (js "-") x)) as (pre & post & E).
  apply (@NoDouble_infix pre _ post). rewrite <- E.
  apply no_double_NoDouble, scan_runs_no_double.
Qed.

Lemma replacements_chars x : Forall slug_char (replacements x).
Proof.
  rewrite replacements_stripped.
  destruct (strip_edges_infix is_hyphen
              (replace_runs not_lower_alnum 1 (js "-") x)) as (pre & post & E).
  pose proof (scan_runs_chars x []) as H. fold (replace_runs not_lower_alnum 1 (js "-") x) in H.
  rewrite E in H. apply Forall_app in H. destruct H as [_ H].
  apply Forall_app in H. tauto.
Qed.

End Slug.

(** C3. For every title the slug has only characters of [[a-z0-9-]], is
    its own lower case, does not start with a hyphen, does not end with
    one and has no two hyphens in a row. *)
Theorem slugify_wellformed : forall title : jsstring,
  Forall (fun c => is_lower_alnum c = true \/ c = hyphen) (slugify title)
  /\ toLowerCase (slugify title) = slugify title
  /\ (forall s, slugify title <> hyphen :: s)
  /\ (forall s, slugify title <> s ++ [hyphen])
  /\ (forall l1 l2, slugify title <> l1 ++ hyphen :: hyphen :: l2).
Proof.
  intros title.
  change (slugify title) with (replacements (trim (toLowerCase title))).
  set (x := trim (toLowerCase title)).
  pose proof (replacements_chars x) as Hchars.
  split; [exact Hchars|]. split; [now apply toLowerCase_slug_chars|].
  rewrite replacements_stripped. split; [|split].
  - intros s E. apply strip_edges_head in E. discriminate.
  - intros s E. unfold strip_edges in E. apply dropWhileEnd_last in E.
    discriminate.
  - destruct (strip_edges_infix is_hyphen
                (replace_runs not_lower_alnum 1 (js "-") x)) as (pre & post & E).
    apply (@NoDouble_infix pre _ post). rewrite <- E.
    apply no_double_NoDouble, scan_runs_no_double.
Qed.

(** ** Times *)

Example normalizeTime_noon : normalizeTime (js " 12 PM ") = Ok (js "12:00").
Proof. reflexivity. Qed.

Example normalizeTime_seconds : normalizeTime (js "7:05:59") = Ok (js "07:05").
Proof. reflexivity. Qed.

Example normalizeTime_mixed :
  normalizeTime (js "9:30 am") = Throw (EError "Invalid time format").
Proof. reflexivity. Qed.

Section Time.

Lemma str_eqb_eq a : forall b, str_eqb a b = true <-> a = b.
Proof.
  induction a as [|x a IH]; intros [|y b]; simpl; split; intros H;
    try discriminate; auto.
  - apply andb_true_iff in H. destruct H as [H1 H2].
    apply N.eqb_eq in H1. apply IH in H2. now subst.
  - inversion H; subst. rewrite N.eqb_refl. simpl. now apply IH.
Qed.

Lemma forallb_Digits s : forallb is_digit s = true <-> Digits s.
Proof. unfold Digits. rewrite Forall_forall. apply forallb_forall. Qed.

Lemma seconds_part_spec tl : seconds_part tl = true <-> Seconds tl.
Proof.
  unfold Seconds, Digits. split.
  - destruct tl as [|c [|s1 [|s2 [|x tl]]]]; simpl; intros H;
      try discriminate; auto.
    apply andb_true_iff in H. destruct H as [H H2].
    apply andb_true_iff in H. destruct H as [H H1].
    apply N.eqb_eq in H. subst c. right. exists [s1; s2]. auto.
  - intros [-> | (sec & Hd & Hl & ->)]; auto.
    destruct sec as [|s1 [|s2 [|x sec]]]; try discriminate.
    inversion Hd as [|? ? H1 Hd']; subst. inversion Hd' as [|? ? H2 _]; subst.
    simpl. rewrite ?N.eqb_refl, H1, H2. reflexivity.
Qed.

(** *** What the two patterns capture *)

Lemma split_at k (v h rest : jsstring) :
  v = h ++ rest -> length h = k -> firstn k v = h /\ skipn k v = rest.
Proof.
  intros -> <-. split.
  - rewrite firstn_app, firstn_all, Nat.sub_diag. simpl. apply app_nil_r.
  - rewrite skipn_app, skipn_all, Nat.sub_diag. reflexivity.
Qed.

Lemma match_colon_at_spec k v h m :
  match_colon_at k v = Some (h, m) <->
  (length h = k /\ Digits h /\ Digits m /\ length m = 2%nat /\
   exists tl, Seconds tl /\ v = h ++ colon :: m ++ tl).
Proof.
  unfold match_colon_at. split.
  - destruct (Nat.eqb_spec (length (firstn k v)) k) as [Hl|]; [|discriminate].
    destruct (forallb is_digit (firstn k v)) eqn:Hd; [|discriminate]. simpl.
    destruct (skipn k v) as [|c [|m1 [|m2 tl]]] eqn:Hs; try discriminate.
    destruct (N.eqb_spec c colon) as [->|]; [|discriminate].
    destruct (is_digit m1) eqn:H1; [|discriminate].
    destruct (is_digit m2) eqn:H2; [|discriminate].
    destruct (seconds_part tl) eqn:H3; [|discriminate]. simpl.
    intros E. inversion E; subst. repeat split; auto.
    + now apply forallb_Digits.
    + repeat constructor; auto.
    + exists tl. split; [now apply seconds_part_spec|].
      simpl. rewrite <- Hs. symmetry. apply firstn_skipn.
  - intros (Hl & Hd & Hm & Hlm & tl & Htl & Hv).
    destruct (@split_at _ _ _ _ Hv Hl) as [-> ->].
    rewrite Hl, Nat.eqb_refl. apply forallb_Digits in Hd. rewrite Hd. simpl.
    destruct m as [|m1 [|m2 [|x m]]]; try discriminate.
    inversion Hm as [|? ? H1 Hm']; subst. inversion Hm' as [|? ? H2 _]; subst.
    simpl. apply seconds_part_spec in Htl.
    rewrite ?N.eqb_refl, H1, H2, Htl. reflexivity.
Qed.

Lemma colon_not_digit : is_digit colon = false.
Proof. reflexivity. Qed.

Lemma match_colon_complete v h m :
  ColonShape v h m -> match_colon v = Some (h, m).
Proof.
  intros (Hd & Hl & Hm & Hlm & tl & Htl & Hv). unfold match_colon.
  destruct Hl as [Hl | Hl].
  - destruct (match_colon_at 2 v) as [[h' m']|] eqn:E2.
    + exfalso. apply match_colon_at_spec in E2.
      destruct E2 as (Hl' & Hd' & _ & _ & tl' & _ & Hv').
      destruct h as [|d [|? ?]]; try discriminate.
      destruct h' as [|d1 [|d2 [|? ?]]]; try discriminate.
      rewrite Hv in Hv'. simpl in Hv'. inversion Hv'; subst.
      inversion Hd' as [|? ? _ Hd'']; subst.
      inversion Hd'' as [|? ? Hc _]; subst.
      rewrite colon_not_digit in Hc. discriminate.
    + apply match_colon_at_spec. repeat split; auto. exists tl. auto.
  - assert (E : match_colon_at 2 v = Some (h, m)).
    { apply match_colon_at_spec. repeat split; auto. exists tl. auto. }
    now rewrite E.
Qed.

Lemma match_colon_sound v h m :
  match_colon v = Some (h, m) -> ColonShape v h m.
Proof.
  unfold match_colon.
  destruct (match_colon_at 2 v) as [g|] eqn:E2; intros E.
  - inversion E; subst. apply match_colon_at_spec in E2.
    destruct E2 as (Hl & Hd & Hm & Hlm & Htl). repeat split; auto.
  - apply match_colon_at_spec in E.
    destruct E as (Hl & Hd & Hm & Hlm & Htl). repeat split; auto.
Qed.

Lemma dropWhile_split p s :
  exists pre, Forall (fun c => p c = true) pre /\ s = pre ++ dropWhile p s.
Proof.
  induction s as [|c s (pre & Hp & IH)]; simpl.
  - exists []. auto.
  - destruct (p c) eqn:Ec.
    + exists (c :: pre). split; [constructor; auto|]. simpl. now rewrite <- IH.
    + exists []. auto.
Qed.

Lemma dropWhile_app p pre s :
  Forall (fun c => p c = true) pre -> dropWhile p (pre ++ s) = dropWhile p s.
Proof. induction 1 as [|c pre Hc _ IH]; simpl; auto. now rewrite Hc. Qed.

Lemma suffix_no_space suffix :
  suffix = js "am" \/ suffix = js "pm" -> dropWhile is_space suffix = suffix.
Proof. intros [-> | ->]; reflexivity. Qed.

Lemma match_ampm_at_spec spaces k v h suffix :
  match_ampm_at spaces k v = Some (h, suffix) <->
  (length h = k /\ Digits h /\ (suffix = js "am" \/ suffix = js "pm") /\
   exists ws, Spaces ws /\ (spaces = false -> ws = []) /\
              v = h ++ ws ++ suffix).
Proof.
  unfold match_ampm_at. split.
  - destruct (Nat.eqb_spec (length (firstn k v)) k) as [Hl|]; [|discriminate].
    destruct (forallb is_digit (firstn k v)) eqn:Hd; [|discriminate]. simpl.
    apply forallb_Digits in Hd.
    set (rest := if spaces then dropWhile is_space (skipn k v) else skipn k v).
    assert (Hrest : exists ws, Spaces ws /\ (spaces = false -> ws = []) /\
                               skipn k v = ws ++ rest).
    { subst rest. destruct spaces.
      - destruct (dropWhile_split is_space (skipn k v)) as (ws & Hws & E).
        exists ws. repeat split; auto. discriminate.
      - exists []. repeat split; auto. constructor. }
    destruct Hrest as (ws & Hws & Hno & Hs).
    assert (Hv : v = firstn k v ++ ws ++ rest)
      by (rewrite <- Hs; symmetry; apply firstn_skipn).
    destruct (str_eqb rest (js "am")) eqn:Eam.
    + apply str_eqb_eq in Eam. intros E. inversion E; subst h suffix.
      repeat split; auto. exists ws. rewrite <- Eam. auto.
    + destruct (str_eqb rest (js "pm")) eqn:Epm; [|discriminate].
      apply str_eqb_eq in Epm. intros E. inversion E; subst h suffix.
      repeat split; auto. exists ws. rewrite <- Epm. auto.
  - intros (Hl & Hd & Hsuf & ws & Hws & Hno & Hv).
    destruct (@split_at _ _ _ _ Hv Hl) as [-> ->].
    rewrite Hl, Nat.eqb_refl. apply forallb_Digits in Hd. rewrite Hd. simpl.
    assert (E : (if spaces then dropWhile is_space (ws ++ suffix)
                 else ws ++ suffix) = suffix).
    { destruct spaces.
      - rewrite dropWhile_app by exact Hws. now apply suffix_no_space.
      - now rewrite Hno. }
    rewrite E. destruct Hsuf as [-> | ->]; reflexivity.
Qed.

Lemma space_not_digit c : is_space c = true -> is_digit c = false.
Proof.
  intros H. destruct (is_digit c) eqn:E; auto. exfalso.
  unfold is_digit in E. apply andb_true_iff in E. destruct E as [E1 E2].
  apply N.leb_le in E1, E2.
  assert (Hc : (c = 48 \/ c = 49 \/ c = 50 \/ c = 51 \/ c = 52 \/ c = 53
                \/ c = 54 \/ c = 55 \/ c = 56 \/ c = 57)%N) by lia.
  repeat (destruct Hc as [-> | Hc]; [discriminate H|]). subst c.
  discriminate H.
Qed.

(** The second character of an am/pm time with a one-digit hour is not a
    digit. *)
Lemma ampm_second_char d ws suffix x rest :
  Spaces ws -> suffix = js "am" \/ suffix = js "pm" ->
  [d] ++ ws ++ suffix = [d; x] ++ rest -> is_digit x = false.
Proof.
  intros Hws Hsuf E. destruct ws as [|w ws]; simpl in E.
  - destruct Hsuf as [-> | ->]; inversion E; reflexivity.
  - inversion E; subst. inversion Hws; subst. now apply space_not_digit.
Qed.

Lemma match_ampm_re_complete v h suffix :
  AmPmShape v h suffix -> match_ampm_re true v = Some (h, suffix).
Proof.
  intros (Hd & Hl & Hsuf & ws & Hws & Hv). unfold match_ampm_re.
  destruct Hl as [Hl | Hl].
  - destruct (match_ampm_at true 2 v) as [[h' s']|] eqn:E2.
    + exfalso. apply match_ampm_at_spec in E2.
      destruct E2 as (Hl' & Hd' & _ & ws' & _ & _ & Hv').
      destruct h as [|d [|? ?]]; try discriminate.
      destruct h' as [|d1 [|d2 [|? ?]]]; try discriminate.
      rewrite Hv in Hv'. assert (d = d1) by (simpl in Hv'; congruence). subst d1.
      pose proof (ampm_second_char Hws Hsuf Hv') as Hx.
      inversion Hd' as [|? ? _ Hd'']; subst.
      inversion Hd'' as [|? ? Hc _]; subst. congruence.
    + apply match_ampm_at_spec. repeat split; auto. exists ws.
      repeat split; auto. discriminate.
  - assert (E : match_ampm_at true 2 v = Some (h, suffix)).
    { apply match_ampm_at_spec. repeat split; auto. exists ws.
      repeat split; auto. discriminate. }
    now rewrite E.
Qed.

Lemma match_ampm_complete v h suffix :
  AmPmShape v h suffix -> match_ampm v = Some (h, suffix).
Proof.
  intros H. unfold match_ampm. now rewrite (match_ampm_re_complete H).
Qed.

Lemma match_ampm_re_sound spaces v h suffix :
  match_ampm_re spaces v = Some (h, suffix) -> AmPmShape v h suffix.
Proof.
  unfold match_ampm_re.
  destruct (match_ampm_at spaces 2 v) as [g|] eqn:E2; intros E.
  - inversion E; subst. apply match_ampm_at_spec in E2.
    destruct E2 as (Hl & Hd & Hsuf & ws & Hws & _ & Hv).
    repeat split; auto. exists ws. auto.
  - apply match_ampm_at_spec in E.
    destruct E as (Hl & Hd & Hsuf & ws & Hws & _ & Hv).
    repeat split; auto. exists ws. auto.
Qed.

Lemma match_ampm_sound v h suffix :
  match_ampm v = Some (h, suffix) -> AmPmShape v h suffix.
Proof.
  unfold match_ampm.
  destruct (match_ampm_re true v) as [g|] eqn:E1; intros E.
  - inversion E; subst. eapply match_ampm_re_sound; eauto.
  - eapply match_ampm_re_sound; eauto.
Qed.

(** *** The two shapes exclude each other *)

Lemma ampm_no_colon v h suffix : AmPmShape v h suffix -> ~ In colon v.
Proof.
  intros (Hd & _ & Hsuf & ws & Hws & ->) Hin.
  apply in_app_or in Hin. destruct Hin as [Hin | Hin].
  - unfold Digits in Hd. rewrite Forall_forall in Hd.
    apply Hd in Hin. discriminate.
  - apply in_app_or in Hin. destruct Hin as [Hin | Hin].
    + unfold Spaces in Hws. rewrite Forall_forall in Hws.
      apply Hws in Hin. discriminate.
    + destruct Hsuf as [-> | ->]; simpl in Hin;
        destruct Hin as [Hin | [Hin | []]]; discriminate.
Qed.

Lemma ampm_not_colon v h suffix :
  AmPmShape v h suffix -> match_colon v = None.
Proof.
  intros H. destruct (match_colon v) as [[h' m']|] eqn:E; auto.
  exfalso. apply (ampm_no_colon H).
  apply match_colon_sound in E. destruct E as (_ & _ & _ & _ & tl & _ & ->).
  apply in_or_app. right. left. reflexivity.
Qed.

(** *** Two digits *)

Lemma pad_two_digits n :
  (n < 100)%N -> padStart0 2 (String_of_N n) = two_digits n.
Proof.
  intros Hn.
  assert (H : forallb (fun k => str_eqb (padStart0 2 (String_of_N (N.of_nat k)))
                                  (two_digits (N.of_nat k)))
                (seq 0 100) = true) by (vm_compute; reflexivity).
  rewrite forallb_forall in H. specialize (H (N.to_nat n)).
  rewrite N2Nat.id in H. apply str_eqb_eq, H, in_seq. lia.
Qed.

Lemma two_digits_are_digits n :
  (n < 100)%N -> Digits (two_digits n) /\ length (two_digits n) = 2%nat.
Proof.
  intros Hn. split; [|reflexivity].
  assert (n / 10 < 10)%N by (apply N.Div0.div_lt_upper_bound; lia).
  assert (n mod 10 < 10)%N by (apply N.mod_lt; lia).
  unfold two_digits.
  set (q := (n / 10)%N) in *. set (r := (n mod 10)%N) in *. clearbody q r.
  apply Forall_cons; [|apply Forall_cons; [|apply Forall_nil]];
    unfold is_digit; apply andb_true_iff; split; apply N.leb_le; lia.
Qed.

(** *** [normalizeTime] on each shape *)

Lemma normalizeTime_colon value h m :
  ColonShape (toLowerCase (trim value)) h m ->
  normalizeTime value =
  if ((23 <? parseInt10 h) || (59 <? parseInt10 m))%N
  then Throw (EError "Invalid time value")
  else Ok (two_digits (parseInt10 h) ++ colon :: two_digits (parseInt10 m)).
Proof.
  intros H. unfold normalizeTime. rewrite (match_colon_complete H).
  replace (parseInt10 h <? 0)%N with false by (symmetry; apply N.ltb_ge; lia).
  replace (parseInt10 m <? 0)%N with false by (symmetry; apply N.ltb_ge; lia).
  simpl orb.
  destruct (N.ltb_spec 23 (parseInt10 h)); simpl; auto.
  destruct (N.ltb_spec 59 (parseInt10 m)); simpl; auto.
  rewrite !pad_two_digits by lia. reflexivity.
Qed.

Lemma normalizeTime_ampm value h suffix :
  AmPmShape (toLowerCase (trim value)) h suffix ->
  normalizeTime value =
  if ((parseInt10 h <? 1) || (12 <? parseInt10 h))%N
  then Throw (EError "Invalid time hour")
  else Ok (two_digits
             (if str_eqb suffix (js "pm")
              then (if parseInt10 h =? 12 then 12 else parseInt10 h + 12)
              else (if parseInt10 h =? 12 then 0 else parseInt10 h))%N
           ++ js ":00").
Proof.
  intros H. unfold normalizeTime.
  rewrite (ampm_not_colon H), (match_ampm_complete H).
  destruct H as (_ & _ & Hsuf & _).
  destruct (N.ltb_spec (parseInt10 h) 1); simpl; auto.
  destruct (N.ltb_spec 12 (parseInt10 h)); simpl; auto.
  destruct Hsuf as [-> | ->]; simpl;
    destruct (N.eqb_spec (parseInt10 h) 12) as [E|E]; simpl;
    rewrite ?E; simpl; rewrite ?pad_two_digits by lia; reflexivity.
Qed.

Lemma normalizeTime_other value :
  (forall h m, ~ ColonShape (toLowerCase (trim value)) h m) ->
  (forall h suffix, ~ AmPmShape (toLowerCase (trim value)) h suffix) ->
  normalizeTime value = Throw (EError "Invalid time format").
Proof.
  intros Hc Ha. unfold normalizeTime.
  destruct (match_colon _) as [[h m]|] eqn:E1.
  - exfalso. apply (Hc h m). now apply match_colon_sound.
  - destruct (match_ampm _) as [[h s]|] eqn:E2; auto.
    exfalso. apply (Ha h s). now apply match_ampm_sound.
Qed.

Lemma normalizeTime_output value out :
  normalizeTime value = Ok out ->
  exists H M, (H <= 23 /\ M <= 59)%N /\
              out = two_digits H ++ colon :: two_digits M.
Proof.
  destruct (match_colon (toLowerCase (trim value))) as [[h m]|] eqn:E1.
  - apply match_colon_sound in E1. rewrite (normalizeTime_colon _ E1).
    destruct (N.ltb_spec 23 (parseInt10 h)); simpl; [discriminate|].
    destruct (N.ltb_spec 59 (parseInt10 m)); simpl; [discriminate|].
    intros E. inversion E. eauto.
  - destruct (match_ampm (toLowerCase (trim value))) as [[h s]|] eqn:E2.
    + apply match_ampm_sound in E2. rewrite (normalizeTime_ampm _ E2).
      destruct (N.ltb_spec (parseInt10 h) 1); simpl; [discriminate|].
      destruct (N.ltb_spec 12 (parseInt10 h)); simpl; [discriminate|].
      intros E. inversion E.
      eexists _, 0%N. split; [|reflexivity].
      destruct (str_eqb s (js "pm"));
        destruct (N.eqb_spec (parseInt10 h) 12); lia.
    + unfold normalizeTime. rewrite E1, E2. discriminate.
Qed.

End Time.

(** C1. On the trimmed, lower-cased input [normalizeTime] knows the colon
    shape (hour up to 23, minute up to 59, seconds dropped) and the am/pm
    shape (hour from 1 to 12, [pm] adds 12 except to 12, [am] turns 12
    into 0, minute 00); every other input fails; a result is always two
    digits, a colon and two digits; and the six examples of the
    specification hold. *)
Theorem normalizeTime_shapes : forall value : jsstring,
  let v := toLowerCase (trim value) in
  (forall h m, ColonShape v h m ->
     ((23 < parseInt10 h \/ 59 < parseInt10 m)%N ->
      normalizeTime value = Throw (EError "Invalid time value")) /\
     ((parseInt10 h <= 23)%N -> (parseInt10 m <= 59)%N ->
      normalizeTime value =
      Ok (two_digits (parseInt10 h) ++ colon :: two_digits (parseInt10 m))))
  /\ (forall h suffix, AmPmShape v h suffix ->
     ((parseInt10 h < 1 \/ 12 < parseInt10 h)%N ->
      normalizeTime value = Throw (EError "Invalid time hour")) /\
     ((1 <= parseInt10 h <= 12)%N -> suffix = js "pm" ->
      normalizeTime value =
      Ok (two_digits (if (parseInt10 h =? 12)%N then 12 else parseInt10 h + 12)
          ++ js ":00")) /\
     ((1 <= parseInt10 h <= 12)%N -> suffix = js "am" ->
      normalizeTime value =
      Ok (two_digits (if (parseInt10 h =? 12)%N then 0 else parseInt10 h)
          ++ js ":00")))
  /\ ((forall h m, ~ ColonShape v h m) ->
      (forall h suffix, ~ AmPmShape v h suffix) ->
      normalizeTime value = Throw (EError "Invalid time format"))
  /\ (forall out, normalizeTime value = Ok out ->
      exists H M, (H <= 23 /\ M <= 59)%N /\
                  out = two_digits H ++ colon :: two_digits M)
  /\ normalizeTime (js "9:30") = Ok (js "09:30")
  /\ normalizeTime (js "9am") = Ok (js "09:00")
  /\ normalizeTime (js "12am") = Ok (js "00:00")
  /\ normalizeTime (js "12pm") = Ok (js "12:00")
  /\ normalizeTime (js "25:00") = Throw (EError "Invalid time value")
  /\ normalizeTime (js "13pm") = Throw (EError "Invalid time hour").
Proof.
  intros value v. subst v.
  split; [|split; [|split; [|split]]].
  - intros h m H. rewrite (normalizeTime_colon _ H). split.
    + intros [Hh | Hm].
      * apply N.ltb_lt in Hh. now rewrite Hh.
      * apply N.ltb_lt in Hm. rewrite Hm. now rewrite orb_true_r.
    + intros Hh Hm. apply N.ltb_ge in Hh, Hm. now rewrite Hh, Hm.
  - intros h suffix H. rewrite (normalizeTime_ampm _ H). repeat split.
    + intros [Hh | Hh].
      * apply N.ltb_lt in Hh. now rewrite Hh.
      * apply N.ltb_lt in Hh. rewrite Hh. now rewrite orb_true_r.
    + intros [H1 H2] ->. apply N.ltb_ge in H1, H2. now rewrite H1, H2.
    + intros [H1 H2] ->. apply N.ltb_ge in H1, H2. now rewrite H1, H2.
  - apply normalizeTime_other.
  - apply normalizeTime_output.
  - repeat split; reflexivity.
Qed.

(** The first part of C1 at ["9:30"]: hour digits ["9"], minute digits
    ["30"]. *)
Lemma normalizeTime_shapes_witness :
  ColonShape (toLowerCase (trim (js "9:30"))) (js "9") (js "30")
  /\ normalizeTime (js "9:30") = Ok (js "09:30").
Proof.
  assert (S : ColonShape (toLowerCase (trim (js "9:30"))) (js "9") (js "30")).
  { split; [repeat constructor|].
    split; [left; reflexivity|].
    split; [repeat constructor|].
    split; [reflexivity|].
    exists []. split; [left; reflexivity | reflexivity]. }
  split; [exact S|].
  destruct (normalizeTime_shapes (js "9:30")) as [Hcolon _].
  destruct (Hcolon (js "9") (js "30") S) as [_ Hok].
  apply Hok; vm_compute; discriminate.
Defined.

(** ** Dates *)

Example date_fields_epoch :
  (getUTCFullYear 0, getUTCMonth 0, getUTCDate 0) = (1970, 0, 1)%Z.
Proof. reflexivity. Qed.

Example date_fields_leap_day :
  (getUTCFullYear 951782400000, getUTCMonth 951782400000,
   getUTCDate 951782400000) = (2000, 1, 29)%Z.
Proof. reflexivity. Qed.

Example date_fields_before_epoch :
  (getUTCFullYear (-1), getUTCMonth (-1), getUTCDate (-1)) = (1969, 11, 31)%Z.
Proof. reflexivity. Qed.

Section Dates.
Local Open Scope Z_scope.

Lemma day_of_year_range doe :
  0 <= doe < 146097 -> 0 <= day_of_year doe <= 365.
Proof.
  intros H. unfold day_of_year, year_of_era. cbv zeta.
  Z.div_mod_to_equations. lia.
Qed.

Lemma civil_range doe :
  0 <= doe < 146097 ->
  1 <= civil_month doe <= 12 /\ 1 <= civil_day doe <= 31.
Proof.
  intros H. pose proof (day_of_year_range H) as Hd.
  unfold civil_month, civil_day, month_from_march. cbv zeta.
  set (doy := day_of_year doe) in *. clearbody doy.
  destruct (Z.ltb_spec ((5 * doy + 2) / 153) 10);
    Z.div_mod_to_equations; lia.
Qed.

Lemma month_day_range t :
  1 <= getUTCMonth t + 1 <= 12 /\ 1 <= getUTCDate t <= 31.
Proof.
  unfold getUTCMonth, getUTCDate.
  assert (Hdoe : 0 <= day_of_era (Day t) < 146097).
  { unfold day_of_era. apply Z.mod_pos_bound. lia. }
  destruct (civil_range Hdoe). lia.
Qed.

Lemma pad_small z :
  0 <= z < 100 -> padStart0 2 (String_of_Z z) = two_digits (Z.to_N z).
Proof.
  intros Hz.
  assert (E : String_of_Z z = String_of_N (Z.to_N z))
    by (destruct z; try reflexivity; lia).
  rewrite E. apply pad_two_digits. lia.
Qed.

Lemma Day_of_instant t d :
  d * msPerDay <= t < d * msPerDay + msPerDay -> Day t = d.
Proof.
  unfold Day, msPerDay. intros H. symmetry.
  apply Z.div_unique with (r := t - d * 86400000); lia.
Qed.

End Dates.

(** C2, as the code has it.  [normalizeDate] fails with 'Invalid date
    format' exactly when the parser rejects the trimmed input; otherwise
    it returns the year, the two-digit month (01 to 12) and the two-digit
    day (01 to 31) of the UTC calendar date of the instant the parser
    returned.  Whenever that instant lies on the UTC day 2026-03-05 the
    result is "2026-03-05": so it is for the ISO form "2026-03-05", which
    the parser reads as midnight UTC; and "not-a-date" fails once the
    parser rejects it. *)
Theorem normalizeDate_utc_date :
  forall (Date_parse : jsstring -> option Z) (value : jsstring),
  (normalizeDate Date_parse value = Throw (EError "Invalid date format")
   <-> Date_parse (trim value) = None)
  /\ (forall t, Date_parse (trim value) = Some t ->
      (1 <= getUTCMonth t + 1 <= 12)%Z /\ (1 <= getUTCDate t <= 31)%Z /\
      normalizeDate Date_parse value =
      Ok (String_of_Z (getUTCFullYear t)
          ++ hyphen :: two_digits (Z.to_N (getUTCMonth t + 1))
          ++ hyphen :: two_digits (Z.to_N (getUTCDate t))))
  /\ (forall t, Date_parse (trim value) = Some t ->
      (1772668800000 <= t < 1772668800000 + msPerDay)%Z ->
      normalizeDate Date_parse value = Ok (js "2026-03-05"))
  /\ (Date_parse (js "2026-03-05") = Some 1772668800000%Z ->
      normalizeDate Date_parse (js "2026-03-05") = Ok (js "2026-03-05"))
  /\ (Date_parse (js "not-a-date") = None ->
      normalizeDate Date_parse (js "not-a-date")
      = Throw (EError "Invalid date format")).
Proof.
  intros Date_parse value.
  assert (Hfields : forall v t, Date_parse (trim v) = Some t ->
            normalizeDate Date_parse v =
            Ok (String_of_Z (getUTCFullYear t)
                ++ hyphen :: two_digits (Z.to_N (getUTCMonth t + 1))
                ++ hyphen :: two_digits (Z.to_N (getUTCDate t)))).
  { intros v t Ht. unfold normalizeDate. rewrite Ht.
    destruct (month_day_range t) as [Hm Hd].
    rewrite !pad_small by lia. reflexivity. }
  assert (Hday : forall v t, Date_parse (trim v) = Some t ->
            (1772668800000 <= t < 1772668800000 + msPerDay)%Z ->
            normalizeDate Date_parse v = Ok (js "2026-03-05")).
  { intros v t Ht Hr. rewrite (Hfields v t Ht).
    assert (E : Day t = 20517%Z)
      by (apply Day_of_instant; unfold msPerDay in *; lia).
    unfold getUTCFullYear, getUTCMonth, getUTCDate. rewrite E. reflexivity. }
  split; [|split; [|split; [|split]]].
  - unfold normalizeDate. destruct (Date_parse (trim value)); split; intros H;
      try discriminate; reflexivity.
  - intros t Ht. destruct (month_day_range t). auto.
  - apply Hday.
  - intros H. apply (Hday _ 1772668800000%Z); [exact H|]. unfold msPerDay. lia.
  - intros H. unfold normalizeDate. replace (trim (js "not-a-date")) with (js "not-a-date") by reflexivity.
    now rewrite H.
Qed.

(** C2 at a host seven hours ahead of UTC and the input "2026-03-05". *)
Lemma normalizeDate_utc_date_witness :
  host_Date_parse 25200000 (trim (js "2026-03-05")) = Some 1772668800000%Z
  /\ normalizeDate (host_Date_parse 25200000) (js "2026-03-05")
     = Ok (js "2026-03-05").
Proof.
  split; [reflexivity|].
  destruct (normalizeDate_utc_date (host_Date_parse 25200000) (js "2026-03-05"))
    as (_ & _ & Hday & _).
  apply (Hday 1772668800000%Z); [reflexivity|].
  unfold msPerDay. lia.
Defined.

(** C2 as the specification states it fails: seven hours ahead of UTC the
    parser reads "March 5, 2026" as 2026-03-04T17:00:00Z, and the UTC
    fields of that instant give the day before. *)
Lemma normalizeDate_local_midnight_counterexample :
  host_Date_parse 25200000 (trim (js "March 5, 2026")) = Some 1772643600000%Z
  /\ normalizeDate (host_Date_parse 25200000) (js "March 5, 2026")
     = Ok (js "2026-03-04")
  /\ normalizeDate (host_Date_parse 25200000) (js "March 5, 2026")
     <> Ok (js "2026-03-05").
Proof.
  split; [reflexivity|]. split; [reflexivity|].
  vm_compute. discriminate.
Qed.

(** ** The pre-save hook *)

Example pre_save_candidate :
  option_map (fun d => (slug (paths d), date (paths d), time (paths d)))
    (match pre_save (host_Date_parse 0)
             (candidate_document (Some (js "A conference")) (Some [js "Talk 1"]))
     with Ok d => Some d | Throw _ => None end)
  = Some (Some (js "cloud-next-2026"), Some (js "2026-03-05"), Some (js "09:00")).
Proof. reflexivity. Qed.

Section HookFacts.
Variable Date_parse : jsstring -> option Z.

Lemma pre_save_body this :
  pre_save Date_parse this =
  match normalise Date_parse this with
  | Throw err => Throw (EError (message_of err))
  | Ok this' =>
      match recheck this' with
      | Ok _ => Ok this'
      | Throw err => Throw (EError (message_of err))
      end
  end.
Proof.
  unfold pre_save, try_catch, bind.
  destruct (normalise Date_parse this); auto.
  destruct (recheck a); auto.
Qed.

(** The normalisation leaves the arrays to the last step. *)
Lemma normalise_arrays this this' :
  normalise Date_parse this = Ok this' ->
  agenda (paths this') = option_map clean_entries (agenda (paths this))
  /\ tags (paths this') = option_map clean_entries (tags (paths this)).
Proof.
  unfold normalise, bind.
  destruct (isModified this "title" || falsy (slug (paths this)));
    [destruct (call_on _ _ (title (paths this))); [|discriminate]|];
    simpl;
    match goal with
    | |- context [isModified ?d "date"] =>
        destruct (isModified d "date");
        [destruct (call_on "trim" (normalizeDate Date_parse) _); [|discriminate]|]
    end;
    simpl;
    match goal with
    | |- context [isModified ?d "time"] =>
        destruct (isModified d "time");
        [destruct (call_on "trim" normalizeTime _); [|discriminate]|]
    end;
    simpl;
    intros E; inversion E; subst; clear E;
    destruct (agenda (paths this)) eqn:Ea; simpl;
    destruct (tags (paths this)) eqn:Et; simpl; rewrite ?Ea, ?Et; auto.
Qed.

Lemma check_required_all e keys :
  Forall (filled e) keys -> check_required e keys = Ok tt.
Proof.
  induction 1 as [|key keys Hk _ IH]; simpl; auto.
  unfold filled, nonEmptyString in Hk.
  destruct (get_string e key) as [val|]; [|discriminate].
  destruct (length (trim val)); [discriminate|]. exact IH.
Qed.

Lemma check_required_first e before key after :
  Forall (filled e) before ->
  nonEmptyString (get_string e key) = false ->
  check_required e (before ++ key :: after) = Throw (EError (field_required key)).
Proof.
  induction 1 as [|k keys Hk _ IH]; simpl; intros Hkey.
  - unfold nonEmptyString in Hkey.
    destruct (get_string e key) as [val|]; auto.
    destruct (length (trim val)); auto. discriminate.
  - unfold filled, nonEmptyString in Hk.
    destruct (get_string e k) as [val|]; [|discriminate].
    destruct (length (trim val)); [discriminate|]. auto.
Qed.

Lemma check_required_ok e keys :
  check_required e keys = Ok tt -> Forall (filled e) keys.
Proof.
  induction keys as [|key keys IH]; simpl; intros H; constructor.
  - unfold filled, nonEmptyString.
    destruct (get_string e key) as [val|]; [|discriminate].
    destruct (length (trim val)); [discriminate|reflexivity].
  - apply IH. destruct (get_string e key) as [val|]; [|discriminate].
    destruct (length (trim val)); [discriminate|exact H].
Qed.

Lemma pre_save_ok this this' :
  pre_save Date_parse this = Ok this' ->
  normalise Date_parse this = Ok this'
  /\ Forall (filled (paths this')) requiredStrings
  /\ empty_array (agenda (paths this')) = false
  /\ empty_array (tags (paths this')) = false.
Proof.
  rewrite pre_save_body.
  destruct (normalise Date_parse this) as [d|]; [|discriminate].
  destruct (recheck d) as [[]|] eqn:R; [|discriminate].
  intros E; inversion E; subst. split; auto.
  unfold recheck, bind in R.
  destruct (check_required (paths this') requiredStrings) as [[]|] eqn:C;
    [|discriminate].
  destruct (empty_array (agenda (paths this'))); [discriminate|].
  destruct (empty_array (tags (paths this'))); [discriminate|].
  split; auto. now apply check_required_ok.
Qed.

Lemma pre_save_empty_agenda this this' :
  normalise Date_parse this = Ok this' ->
  Forall (filled (paths this')) requiredStrings ->
  empty_array (agenda (paths this')) = true ->
  pre_save Date_parse this
  = Throw (EError "Agenda is required and cannot be empty").
Proof.
  intros Hn Hall Ha. rewrite pre_save_body, Hn. unfold recheck, bind.
  rewrite (check_required_all Hall), Ha. reflexivity.
Qed.

Lemma empty_array_clean a :
  empty_array (Some (clean_entries a)) = true <-> clean_entries a = [].
Proof.
  simpl. destruct (clean_entries a); simpl; split; auto; discriminate.
Qed.

Lemma clean_entries_In a s :
  In s (clean_entries a) <-> (s <> [] /\ exists x, In x a /\ s = trim x).
Proof.
  unfold clean_entries. rewrite filter_In, in_map_iff. split.
  - intros [(x & Hx & Hin) Hs]. split.
    + intros ->. discriminate.
    + exists x. auto.
  - intros [Hs (x & Hin & Hx)]. split.
    + exists x. auto.
    + destruct s; [contradiction|reflexivity].
Qed.

End HookFacts.

Section Messages.
Local Open Scope string_scope.

Lemma length_append a : forall r,
  String.length (a ++ r) = (String.length a + String.length r)%nat.
Proof. induction a as [|c a IH]; simpl; intros r; auto. Qed.

Lemma append_cancel_r a : forall b r, a ++ r = b ++ r -> a = b.
Proof.
  induction a as [|x a IH]; intros [|y b] r E; auto.
  - apply (f_equal String.length) in E. simpl in E.
    rewrite length_append in E. lia.
  - apply (f_equal String.length) in E. simpl in E.
    rewrite length_append in E. lia.
  - simpl in E. inversion E; subst. f_equal. eapply IH; eauto.
Qed.

(** The message tells which field it is about. *)
Lemma field_required_inj k1 k2 :
  field_required k1 = field_required k2 -> k1 = k2.
Proof.
  unfold field_required. simpl. intros E. inversion E as [E'].
  apply append_cancel_r in E'. exact E'.
Qed.
End Messages.

(** C5. Once the normalisation has gone through, the hook reports the
    first path, in the order title, description, overview, image, venue,
    location, date, time, mode, audience, organizer, that holds no
    non-blank string, in a message that determines the path; then an
    empty agenda; then empty tags; and it succeeds when there is none. *)
Theorem recheck_declared_order :
  forall (Date_parse : jsstring -> option Z) (this this' : EventDocument),
  normalise Date_parse this = Ok this' ->
  (forall before key after,
     requiredStrings = before ++ key :: after ->
     Forall (filled (paths this')) before ->
     nonEmptyString (get_string (paths this') key) = false ->
     pre_save Date_parse this = Throw (EError (field_required key)))
  /\ (Forall (filled (paths this')) requiredStrings ->
      empty_array (agenda (paths this')) = true ->
      pre_save Date_parse this
      = Throw (EError "Agenda is required and cannot be empty"))
  /\ (Forall (filled (paths this')) requiredStrings ->
      empty_array (agenda (paths this')) = false ->
      empty_array (tags (paths this')) = true ->
      pre_save Date_parse this
      = Throw (EError "Tags are required and cannot be empty"))
  /\ (Forall (filled (paths this')) requiredStrings ->
      empty_array (agenda (paths this')) = false ->
      empty_array (tags (paths this')) = false ->
      pre_save Date_parse this = Ok this')
  /\ requiredStrings
     = ["title"; "description"; "overview"; "image"; "venue"; "location";
        "date"; "time"; "mode"; "audience"; "organizer"]%string
  /\ (forall k1 k2, field_required k1 = field_required k2 -> k1 = k2).
Proof.
  intros Date_parse this this' Hn.
  split; [|split; [|split; [|split; [|split]]]].
  - intros before key after Hlist Hbefore Hkey.
    rewrite pre_save_body, Hn. unfold recheck, bind.
    rewrite Hlist, (@check_required_first _ _ _ after Hbefore Hkey). reflexivity.
  - intros Hall Ha. eapply pre_save_empty_agenda; eauto.
  - intros Hall Ha Ht. rewrite pre_save_body, Hn. unfold recheck, bind.
    rewrite (check_required_all Hall), Ha, Ht. reflexivity.
  - intros Hall Ha Ht. rewrite pre_save_body, Hn. unfold recheck, bind.
    rewrite (check_required_all Hall), Ha, Ht. reflexivity.
  - reflexivity.
  - apply field_required_inj.
Qed.

(** C5 on a document with a blank description and no agenda: the
    description is reported. *)
Lemma recheck_declared_order_witness :
  pre_save (host_Date_parse 0) (candidate_document (Some (js "  ")) None)
  = Throw (EError (field_required "description")).
Proof.
  destruct (normalise (host_Date_parse 0)
              (candidate_document (Some (js "  ")) None)) as [d|e] eqn:Hn;
    [|vm_compute in Hn; discriminate].
  destruct (recheck_declared_order _ _ Hn) as [Hfirst _].
  assert (Hd : d = {| paths := with_time (with_date (with_slug
                        (candidate (Some (js "  ")) None)
                        (Some (js "cloud-next-2026")))
                        (Some (js "2026-03-05"))) (Some (js "09:00"));
                      modifiedPaths := modifiedPaths
                        (candidate_document (Some (js "  ")) None) |})
    by (vm_compute in Hn; inversion Hn; reflexivity).
  apply (Hfirst ["title"%string] "description"%string
           ["overview"; "image"; "venue"; "location"; "date"; "time"; "mode";
            "audience"; "organizer"]%string).
  - reflexivity.
  - subst d. repeat constructor.
  - subst d. reflexivity.
Defined.

(** ** The validation of the schema *)

Section Validation.

Lemma errors_in_spec st this err :
  In err (errors_in st this) <->
  exists p, In p (validated_paths (paths this))
            /\ state_of this p = st /\ In err (path_errors p).
Proof.
  unfold errors_in. rewrite in_flat_map. split.
  - intros (p & Hp & He). apply filter_In in Hp. destruct Hp as [Hp Hs].
    exists p. repeat split; auto.
    destruct (state_of this p), st; simpl in Hs; congruence.
  - intros (p & Hp & Hs & He). exists p. split; auto.
    apply filter_In. split; auto. rewrite Hs. destruct st; reflexivity.
Qed.

(** Every path with validators is validated, in one of the three
    groups. *)
Lemma validation_errors_spec this err :
  In err (validation_errors this) <->
  exists p, In p (validated_paths (paths this)) /\ In err (path_errors p).
Proof.
  unfold validation_errors. rewrite !in_app_iff, !errors_in_spec. split.
  - intros [H | [H | H]]; destruct H as (p & Hp & _ & He); eauto.
  - intros (p & Hp & He).
    destruct (state_of this p) eqn:E; [left | right; left | right; right];
      exists p; auto.
Qed.

Lemma validation_errors_nil this :
  validation_errors this = [] ->
  forall p, In p (validated_paths (paths this)) -> path_errors p = [].
Proof.
  intros H p Hp. destruct (path_errors p) as [|err l] eqn:E; auto.
  assert (Hin : In err (validation_errors this)).
  { apply validation_errors_spec. exists p. split; auto.
    rewrite E. left; reflexivity. }
  rewrite H in Hin. contradiction.
Qed.

End Validation.

(** A record whose description is blank, whose time is missing and whose
    agenda is not given: the missing path is reported first, the blank
    one after it, the array that holds its default last, with the
    message of its validator. *)
Example validation_order :
  validation_errors
    (new_Event (with_time (candidate (Some (js "  ")) None) None))
  = [("time", path_required "time");
     ("description", path_required "description");
     ("agenda", "Agenda must be a non-empty array of strings")]%string.
Proof. vm_compute. reflexivity. Qed.

(** ** The arrays: the hook and the validator *)

Section Arrays.
Variable Date_parse : jsstring -> option Z.
Variable fault : option exn.
Variable unique_slug : bool.

Lemma blank_entry_fails a :
  (exists x, In x a /\ trim x = []) ->
  arrayOfNonEmptyStrings (array_set (Some a)) = false.
Proof.
  intros (x & Hin & Hx). simpl. apply andb_false_iff. right.
  apply not_true_is_false. intros H. rewrite forallb_forall in H.
  specialize (H (trim x) (in_map trim _ _ Hin)). rewrite Hx in H.
  discriminate.
Qed.

Lemma validate_array_blank path message a :
  (exists x, In x a /\ trim x = []) ->
  validate_array path message (array_set (Some a)) = [(path, message)].
Proof.
  intros H. unfold validate_array. rewrite (blank_entry_fails a H).
  destruct H as (x & Hin & _). destruct a; [contradiction|]. reflexivity.
Qed.

Lemma create_invalid data events :
  validation_errors (new_Event data) <> [] ->
  Event_create Date_parse fault unique_slug data events
  = (Throw (ValidationError (validation_errors (new_Event data))),
     events).
Proof.
  intros H. unfold Event_create, save, validate.
  destruct (validation_errors (new_Event data)); [contradiction|].
  reflexivity.
Qed.

Lemma agenda_error_listed data a :
  agenda data = Some a -> (exists x, In x a /\ trim x = []) ->
  In ("agenda", "Agenda must be a non-empty array of strings")%string
     (validation_errors (new_Event data)).
Proof.
  intros Ha H. apply validation_errors_spec.
  exists (array_path "agenda" "Agenda must be a non-empty array of strings"
            (array_set (Some a))).
  split.
  - unfold validated_paths, new_Event. cbn [paths agenda]. rewrite Ha.
    do 10 right. left. reflexivity.
  - cbn [path_errors array_path]. rewrite (validate_array_blank _ _ a H).
    left; reflexivity.
Qed.

Lemma tags_error_listed data a :
  tags data = Some a -> (exists x, In x a /\ trim x = []) ->
  In ("tags", "Tags must be a non-empty array of strings")%string
     (validation_errors (new_Event data)).
Proof.
  intros Ha H. apply validation_errors_spec.
  exists (array_path "tags" "Tags must be a non-empty array of strings"
            (array_set (Some a))).
  split.
  - unfold validated_paths, new_Event. cbn [paths tags]. rewrite Ha.
    do 12 right. left. reflexivity.
  - cbn [path_errors array_path]. rewrite (validate_array_blank _ _ a H).
    left; reflexivity.
Qed.

End Arrays.

(** C4, as the code has it.  Inside the hook every entry of [agenda] and
    [tags] is trimmed and the empty results are dropped before the hook
    looks whether the array is empty: run on a document with agenda
    ["  ", "Talk 1"] the hook leaves ["Talk 1"], on ["  "] it fails with
    'Agenda is required and cannot be empty'.  During creation the
    validator of the schema comes first: an agenda or tags array with a
    blank entry is refused there, nothing is stored, and both example
    records are rejected with 'Agenda must be a non-empty array of
    strings'. *)
Theorem array_cleanup_and_validation :
  forall (Date_parse : jsstring -> option Z) (fault : option exn)
         (unique_slug : bool),
  (forall a s, In s (clean_entries a) <->
               (s <> [] /\ exists x, In x a /\ s = trim x))
  /\ (forall this this', pre_save Date_parse this = Ok this' ->
      (forall a, agenda (paths this) = Some a ->
         agenda (paths this') = Some (clean_entries a) /\ clean_entries a <> [])
      /\ (forall a, tags (paths this) = Some a ->
         tags (paths this') = Some (clean_entries a) /\ clean_entries a <> []))
  /\ (forall this this' a, normalise Date_parse this = Ok this' ->
      Forall (filled (paths this')) requiredStrings ->
      agenda (paths this) = Some a -> clean_entries a = [] ->
      pre_save Date_parse this
      = Throw (EError "Agenda is required and cannot be empty"))
  /\ (forall data events a,
      agenda data = Some a -> (exists x, In x a /\ trim x = []) ->
      Event_create Date_parse fault unique_slug data events
      = (Throw (ValidationError (validation_errors (new_Event data))),
         events)
      /\ In ("agenda", "Agenda must be a non-empty array of strings")%string
            (validation_errors (new_Event data)))
  /\ (forall data events a,
      tags data = Some a -> (exists x, In x a /\ trim x = []) ->
      Event_create Date_parse fault unique_slug data events
      = (Throw (ValidationError (validation_errors (new_Event data))),
         events)
      /\ In ("tags", "Tags must be a non-empty array of strings")%string
            (validation_errors (new_Event data)))
  /\ (exists d,
      pre_save (host_Date_parse 0)
        (candidate_document (Some (js "A conference"))
           (Some [js "  "; js "Talk 1"])) = Ok d
      /\ agenda (paths d) = Some [js "Talk 1"])
  /\ pre_save (host_Date_parse 0)
       (candidate_document (Some (js "A conference")) (Some [js "  "]))
     = Throw (EError "Agenda is required and cannot be empty")
  /\ Event_create (host_Date_parse 0) None true
       (candidate (Some (js "A conference")) (Some [js "  "; js "Talk 1"])) []
     = (Throw (ValidationError
                 [("agenda", "Agenda must be a non-empty array of strings")%string]),
        [])
  /\ Event_create (host_Date_parse 0) None true
       (candidate (Some (js "A conference")) (Some [js "  "])) []
     = (Throw (ValidationError
                 [("agenda", "Agenda must be a non-empty array of strings")%string]),
        []).
Proof.
  intros Date_parse fault.
  split; [apply clean_entries_In|].
  split.
  { intros this this' H. apply pre_save_ok in H.
    destruct H as (Hn & _ & Ha & Ht).
    destruct (normalise_arrays _ _ Hn) as [Ea Et].
    split; intros a E; rewrite E in *; simpl in *.
    - split; [exact Ea|]. rewrite Ea in Ha. intros Hc.
      apply empty_array_clean in Hc. congruence.
    - split; [exact Et|]. rewrite Et in Ht. intros Hc.
      apply empty_array_clean in Hc. congruence. }
  split.
  { intros this this' a Hn Hall Ea Hc.
    apply (@pre_save_empty_agenda _ _ _ Hn); auto.
    destruct (normalise_arrays _ _ Hn) as [E _]. rewrite E, Ea. simpl.
    now rewrite Hc. }
  split.
  { intros data events a Ha H.
    pose proof (agenda_error_listed data Ha H) as Hin.
    split; [|exact Hin]. apply create_invalid.
    intros E. rewrite E in Hin. contradiction. }
  split.
  { intros data events a Ha H.
    pose proof (tags_error_listed data Ha H) as Hin.
    split; [|exact Hin]. apply create_invalid.
    intros E. rewrite E in Hin. contradiction. }
  split.
  { match goal with
    | |- exists d, ?x = Ok d /\ _ =>
        let v := eval vm_compute in x in
        replace x with v by (vm_compute; reflexivity)
    end.
    eexists. split; reflexivity. }
  repeat split; vm_compute; reflexivity.
Qed.

(** C4 on the record with agenda ["  ", "Talk 1"]: the agenda has a
    blank entry, and the creation fails on the validator. *)
Lemma array_cleanup_and_validation_witness :
  (exists x, In x [js "  "; js "Talk 1"] /\ trim x = [])
  /\ In ("agenda", "Agenda must be a non-empty array of strings")%string
        (validation_errors
           (new_Event (candidate (Some (js "A conference"))
                         (Some [js "  "; js "Talk 1"])))).
Proof.
  assert (H : exists x, In x [js "  "; js "Talk 1"] /\ trim x = [])
    by (exists (js "  "); split; [left; reflexivity | reflexivity]).
  split; [exact H|].
  destruct (array_cleanup_and_validation (host_Date_parse 0) None true)
    as (_ & _ & _ & Hcreate & _).
  destruct (Hcreate (candidate (Some (js "A conference"))
                       (Some [js "  "; js "Talk 1"]))
                    [] [js "  "; js "Talk 1"] eq_refl H) as [_ Hin].
  exact Hin.
Defined.

(** C4 as the specification states it fails: the record with agenda
    ["  ", "Talk 1"] is not accepted; the validator of the schema rejects
    it and nothing is stored. *)
Lemma create_blank_entry_counterexample :
  Event_create (host_Date_parse 0) None true
    (candidate (Some (js "A conference")) (Some [js "  "; js "Talk 1"])) []
  = (Throw (ValidationError
              [("agenda", "Agenda must be a non-empty array of strings")%string]),
     [])
  /\ forall created stored,
       Event_create (host_Date_parse 0) None true
         (candidate (Some (js "A conference")) (Some [js "  "; js "Talk 1"])) []
       <> (Ok created, stored).
Proof.
  assert (E : Event_create (host_Date_parse 0) None true
                (candidate (Some (js "A conference"))
                   (Some [js "  "; js "Talk 1"])) []
              = (Throw (ValidationError
                   [("agenda", "Agenda must be a non-empty array of strings")%string]),
                 [])) by (vm_compute; reflexivity).
  split; [exact E|]. intros created stored. rewrite E. discriminate.
Qed.

(** ** Creating an event *)

Example create_candidate :
  Event_create (host_Date_parse 0) None true
    (candidate (Some (js " A conference ")) (Some [js " Talk 1 "])) []
  = (Ok (with_time (with_date (with_slug
           (candidate (Some (js "A conference")) (Some [js "Talk 1"]))
           (Some (js "cloud-next-2026"))) (Some (js "2026-03-05")))
           (Some (js "09:00"))),
     [with_time (with_date (with_slug
           (candidate (Some (js "A conference")) (Some [js "Talk 1"]))
           (Some (js "cloud-next-2026"))) (Some (js "2026-03-05")))
           (Some (js "09:00"))]).
Proof. vm_compute. reflexivity. Qed.

Section Create.
Variable Date_parse : jsstring -> option Z.
Variable fault : option exn.
Variable unique_slug : bool.

Lemma insertOne_cases e events r events' :
  insertOne fault unique_slug e events = (r, events') ->
  (exists err, r = Throw err /\ events' = events)
  \/ (r = Ok e /\ events' = events ++ [e]).
Proof.
  unfold insertOne. destruct fault.
  - intros E; inversion E; eauto.
  - destruct (unique_slug && _); intros E; inversion E; eauto.
Qed.

Lemma create_cases data events r events' :
  Event_create Date_parse fault unique_slug data events = (r, events') ->
  (exists err, r = Throw err /\ events' = events)
  \/ (exists d, validate (new_Event data) = Ok tt
                /\ pre_save Date_parse (new_Event data) = Ok d
                /\ r = Ok (paths d) /\ events' = events ++ [paths d]).
Proof.
  unfold Event_create, save.
  destruct (validate (new_Event data)) as [[]|err];
    [|intros E; inversion E; eauto].
  destruct (pre_save Date_parse (new_Event data)) as [d|err];
    [|intros E; inversion E; eauto].
  intros E. apply insertOne_cases in E.
  destruct E as [E | [-> ->]]; [left; exact E|].
  right. exists d. auto.
Qed.

Lemma create_failure data events err events' :
  Event_create Date_parse fault unique_slug data events = (Throw err, events') ->
  events' = events.
Proof.
  intros E. apply create_cases in E.
  destruct E as [(e & _ & ->) | (d & _ & _ & E & _)]; [reflexivity|].
  discriminate.
Qed.

End Create.

(** C7. A create attempt that fails leaves the stored events as they
    were: a validation error and an error of the pre-save hook both come
    out of [Event.create] unchanged and nothing is written; a response
    other than 201 means the same set of events as before; and what a
    successful create stores is the document as the hook returned it. *)
Theorem failed_create_stores_nothing :
  forall (env : Env) (request : NextRequest) (w : World)
         (data : IEvent),
  (forall err stored,
     Event_create (Date_parse env) (fault env) (slug_index env) data (events w) = (Throw err, stored) ->
     stored = events w)
  /\ (forall err, validate (new_Event data) = Throw err ->
      Event_create (Date_parse env) (fault env) (slug_index env) data (events w)
      = (Throw err, events w))
  /\ (forall err, validate (new_Event data) = Ok tt ->
      pre_save (Date_parse env) (new_Event data) = Throw err ->
      Event_create (Date_parse env) (fault env) (slug_index env) data (events w)
      = (Throw err, events w))
  /\ (forall created stored,
      Event_create (Date_parse env) (fault env) (slug_index env) data (events w) = (Ok created, stored) ->
      stored = events w ++ [created]
      /\ exists d, pre_save (Date_parse env) (new_Event data) = Ok d
                   /\ created = paths d)
  /\ (status (fst (POST env request w)) <> 201%N ->
      events (snd (POST env request w)) = events w).
Proof.
  intros env request w data.
  split; [intros err stored E; eapply create_failure; eauto|].
  split; [intros err E; unfold Event_create, save; now rewrite E|].
  split; [intros err E1 E2; unfold Event_create, save; now rewrite E1, E2|].
  split.
  - intros created stored E. apply create_cases in E.
    destruct E as [(e & E & _) | (d & _ & Hd & E & ->)]; [discriminate|].
    inversion E; subst. split; [reflexivity|]. exists d. auto.
  - unfold POST.
    destruct (Mongodb.connectToDatabase (connect_outcome env) (connection w))
      as [[m|e] k]; simpl; auto.
    destruct (read_body request) as [[r|payload]|e]; simpl; auto.
    destruct (Event_create (Date_parse env) (fault env) (slug_index env) payload (events w))
      as [[created|e] stored] eqn:E; simpl.
    + intros H. contradiction H. reflexivity.
    + intros _. eapply create_failure; eauto.
Qed.

(** C7 on the record with a blank description, sent as JSON. *)
Lemma failed_create_stores_nothing_witness :
  status (fst (POST reachable_env
                 (json_request (candidate (Some (js "  ")) (Some [js "Talk 1"])))
                 fresh_world)) = 500%N
  /\ events (snd (POST reachable_env
                    (json_request (candidate (Some (js "  ")) (Some [js "Talk 1"])))
                    fresh_world)) = [].
Proof.
  split; [vm_compute; reflexivity|].
  destruct (failed_create_stores_nothing reachable_env
              (json_request (candidate (Some (js "  ")) (Some [js "Talk 1"])))
              fresh_world (candidate (Some (js "  ")) (Some [js "Talk 1"])))
    as (_ & _ & _ & _ & H).
  apply H. vm_compute. discriminate.
Defined.

(** ** The handlers *)

Example POST_created :
  status (fst (POST reachable_env
                 (json_request (candidate (Some (js "A conference"))
                                  (Some [js "Talk 1"])))
                 fresh_world)) = 201%N.
Proof. vm_compute. reflexivity. Qed.

Example POST_text_plain :
  status (fst (POST reachable_env text_plain_request fresh_world)) = 415%N.
Proof. vm_compute. reflexivity. Qed.

Section HandlerFacts.
Variable env : Env.

Lemma read_body_cases request :
  let contentType := header_or_empty (content_type request) in
  match read_body request with
  | Ok (Value data) => Payload request data
  | Ok (Return r) =>
      includes contentType (js "application/json") = false
      /\ ((status r = 415%N
           /\ includes contentType (js "multipart/form-data") = false)
          \/ (status r = 400%N
              /\ includes contentType (js "multipart/form-data") = true
              /\ exists err, formData request = Throw err))
  | Throw err =>
      includes contentType (js "application/json") = true
      /\ json request = Throw err
  end.
Proof.
  unfold read_body, Payload. cbv zeta.
  destruct (includes _ (js "application/json")).
  - destruct (json request); simpl; auto.
  - destruct (includes _ (js "multipart/form-data")).
    + destruct (formData request); simpl; eauto 10.
    + simpl. auto.
Qed.

Lemma POST_connect_failure request w err :
  connected env w = Throw err ->
  fst (POST env request w) = internal_error err.
Proof.
  unfold connected, POST.
  destruct (Mongodb.connectToDatabase _ _) as [[m|e] k]; simpl;
    intros E; inversion E; reflexivity.
Qed.

(** The response once the connection is there. *)
Lemma POST_connected request w m :
  connected env w = Ok m ->
  fst (POST env request w) =
  match read_body request with
  | Throw err => internal_error err
  | Ok (Return r) => r
  | Ok (Value data) =>
      match fst (Event_create (Date_parse env) (fault env) (slug_index env) data (events w)) with
      | Ok createdEvent =>
          {| status := 201;
             body := Created "Event created successfully" createdEvent |}
      | Throw err => internal_error err
      end
  end.
Proof.
  unfold connected, POST.
  destruct (Mongodb.connectToDatabase _ _) as [[m'|e] k]; simpl;
    intros E; inversion E.
  destruct (read_body request) as [[r|data]|e]; simpl; auto.
  destruct (Event_create _ _ _ data (events w)) as [[c|e] evs]; reflexivity.
Qed.

Lemma Payload_unique request d1 d2 :
  Payload request d1 -> Payload request d2 -> d1 = d2.
Proof.
  unfold Payload. cbv zeta.
  intros [[H1 E1] | (H1 & H1' & E1)] [[H2 E2] | (H2 & H2' & E2)];
    congruence.
Qed.

End HandlerFacts.

(** C6, as the code has it.  The handler connects first: when that fails
    the answer is 500 whatever the content type.  With the connection
    there, the answer is 415 exactly when the content type contains
    neither [application/json] nor [multipart/form-data]; 400 exactly when
    it contains the second and not the first and the form cannot be read;
    201 with the created document exactly when the payload is created;
    and 500 in every other case: a JSON body that does not parse and any
    error of [Event.create], the validation and hook errors among them. *)
Theorem POST_statuses :
  forall (env : Env) (request : NextRequest) (w : World),
  let contentType := header_or_empty (content_type request) in
  let response := fst (POST env request w) in
  (forall err, connected env w = Throw err ->
     response = {| status := 500;
                   body := Internal "Internal server error" (message_of err) |})
  /\ (forall m, connected env w = Ok m ->
      (status response = 415%N <->
         includes contentType (js "application/json") = false
         /\ includes contentType (js "multipart/form-data") = false)
      /\ (status response = 400%N <->
         includes contentType (js "application/json") = false
         /\ includes contentType (js "multipart/form-data") = true
         /\ exists err, formData request = Throw err)
      /\ (forall data created,
         Payload request data ->
         fst (Event_create (Date_parse env) (fault env) (slug_index env) data (events w)) = Ok created ->
         response = {| status := 201;
                       body := Created "Event created successfully" created |})
      /\ (status response = 201%N ->
         exists data created,
           Payload request data
           /\ fst (Event_create (Date_parse env) (fault env) (slug_index env) data (events w))
              = Ok created)
      /\ (forall data err,
         Payload request data ->
         fst (Event_create (Date_parse env) (fault env) (slug_index env) data (events w)) = Throw err ->
         response = {| status := 500;
                       body := Internal "Internal server error" (message_of err) |})
      /\ (forall err,
         includes contentType (js "application/json") = true ->
         json request = Throw err ->
         response = {| status := 500;
                       body := Internal "Internal server error" (message_of err) |}))
  /\ (status response = 201%N \/ status response = 400%N
      \/ status response = 415%N \/ status response = 500%N).
Proof.
  intros env request w contentType response. subst response contentType.
  pose proof (read_body_cases request) as Hread. cbv zeta in Hread.
  split; [intros err E; now rewrite (POST_connect_failure _ _ _ E)|].
  split.
  - intros m E. rewrite (POST_connected _ _ _ E).
    destruct (read_body request) as [[r|data]|e].
    + destruct Hread as [Hj [[Hs Hm] | (Hs & Hm & err & Hf)]];
        repeat split; settle_cases.
    + destruct (fst (Event_create (Date_parse env) (fault env) (slug_index env) data (events w)))
        as [created|err] eqn:Ec; simpl;
        repeat split; try (intros _; exists data, created; split; assumption);
        settle_cases.
    + destruct Hread as [Hj Hjson]. simpl. repeat split; settle_cases.
  - destruct (connected env w) as [m|err] eqn:E.
    + rewrite (POST_connected _ _ _ E).
      destruct (read_body request) as [[r|data]|e]; simpl; auto.
      * destruct Hread as [_ [[Hs _] | (Hs & _)]]; rewrite Hs; auto.
      * destruct (fst (Event_create _ _ _ data (events w))); simpl; auto.
    + rewrite (POST_connect_failure _ _ _ E). simpl. auto.
Qed.

(** C6 on a [text/plain] request while the database answers: 415. *)
Lemma POST_statuses_witness :
  connected reachable_env fresh_world = Ok 1%N
  /\ status (fst (POST reachable_env text_plain_request fresh_world)) = 415%N.
Proof.
  split; [reflexivity|].
  destruct (POST_statuses reachable_env text_plain_request fresh_world)
    as (_ & H & _).
  destruct (H 1%N eq_refl) as [[_ H415] _].
  apply H415. split; reflexivity.
Defined.

(** C6 as the specification states it fails: the content type is
    [text/plain], neither JSON nor multipart form data, and the answer is
    500, not 415, because the database cannot be reached. *)
Lemma POST_unreachable_counterexample :
  includes (header_or_empty (content_type text_plain_request))
    (js "application/json") = false
  /\ includes (header_or_empty (content_type text_plain_request))
       (js "multipart/form-data") = false
  /\ status (fst (POST unreachable_env text_plain_request fresh_world)) = 500%N
  /\ status (fst (POST unreachable_env text_plain_request fresh_world)) <> 415%N.
Proof.
  repeat split; try reflexivity. vm_compute. discriminate.
Qed.

Section Queries.
Variable env : Env.

Lemma same_slug_eq a p : same_slug a (Some p) = true <-> a = Some p.
Proof.
  destruct a as [x|]; simpl; split; intros H; try discriminate.
  - apply str_eqb_eq in H. now subst.
  - inversion H; subst. now apply str_eqb_eq.
Qed.

Lemma find_none_slug p (l : list IEvent) :
  find (fun x => same_slug (slug x) (Some p)) l = None <->
  (forall e, In e l -> slug e <> Some p).
Proof.
  split.
  - intros H e Hin Hs. apply (find_none _ _ H) in Hin.
    apply same_slug_eq in Hs. congruence.
  - intros H. induction l as [|x l IH]; simpl; auto.
    destruct (same_slug (slug x) (Some p)) eqn:E.
    + apply same_slug_eq in E. exfalso. apply (H x); simpl; auto.
    + apply IH. intros e Hin. apply H. simpl; auto.
Qed.

Lemma GET_slug_world p w :
  events (snd (GET_slug env p w)) = events w.
Proof.
  unfold GET_slug.
  destruct (Mongodb.connectToDatabase _ _) as [c k]. simpl.
  destruct (bind c _) as [[e|]|]; reflexivity.
Qed.

Lemma GET_slug_response p w :
  fst (GET_slug env p w) =
  match connected env w with
  | Throw _ => {| status := 500; body := ErrorBody "Failed to fetch event" |}
  | Ok _ =>
      match Event_findOne (fault env) p (events w) with
      | Ok None => {| status := 404; body := ErrorBody "Event not found" |}
      | Ok (Some event) => {| status := 200; body := OneEvent event |}
      | Throw _ => {| status := 500; body := ErrorBody "Failed to fetch event" |}
      end
  end.
Proof.
  unfold GET_slug, connected.
  destruct (Mongodb.connectToDatabase _ _) as [[m|e] k]; simpl; auto.
  destruct (Event_findOne (fault env) p (events w)) as [[e|]|]; reflexivity.
Qed.

Lemma GET_response w :
  fst (GET env w) =
  match connected env w with
  | Throw _ => {| status := 500; body := ErrorBody "Failed to fetch events" |}
  | Ok _ =>
      match Event_find_populate (fault env) (events w) with
      | Ok evs => {| status := 200; body := Events evs |}
      | Throw _ => {| status := 500; body := ErrorBody "Failed to fetch events" |}
      end
  end.
Proof.
  unfold GET, connected.
  destruct (Mongodb.connectToDatabase _ _) as [[m|e] k]; simpl; auto.
  destruct (Event_find_populate _ _); reflexivity.
Qed.

(** The answers of the list handler, case by case. *)
Lemma GET_answers w :
  fst (GET env w) =
  match connected env w, fault env, events w with
  | Ok _, None, [] => {| status := 200; body := Events [] |}
  | _, _, _ => {| status := 500; body := ErrorBody "Failed to fetch events" |}
  end.
Proof.
  rewrite GET_response. unfold Event_find_populate.
  destruct (connected env w); [|reflexivity].
  destruct (fault env); [reflexivity|].
  destruct (events w); reflexivity.
Qed.

End Queries.

(** C8. With the connection and the query going through, the handler
    answers 404 with the message 'Event not found', and no document,
    when no stored event has the slug of the path, and 200 with a stored
    event of that slug when there is one; it answers 500 when connecting
    or the query fails; it never changes the stored events. *)
Theorem GET_slug_statuses :
  forall (env : Env) (params_slug : jsstring) (w : World),
  let response := fst (GET_slug env params_slug w) in
  (forall m, connected env w = Ok m -> fault env = None ->
     ((forall e, In e (events w) -> slug e <> Some params_slug) ->
      response = {| status := 404; body := ErrorBody "Event not found" |})
     /\ ((exists e, In e (events w) /\ slug e = Some params_slug) ->
         exists event, In event (events w) /\ slug event = Some params_slug
                       /\ response = {| status := 200; body := OneEvent event |}))
  /\ ((exists err, connected env w = Throw err) \/ (exists err, fault env = Some err) ->
      response = {| status := 500; body := ErrorBody "Failed to fetch event" |})
  /\ events (snd (GET_slug env params_slug w)) = events w.
Proof.
  intros env p w response. subst response.
  rewrite GET_slug_response. split; [|split].
  - intros m Hc Hf. rewrite Hc. unfold Event_findOne. rewrite Hf. split.
    + intros H. apply find_none_slug in H. now rewrite H.
    + intros (e & Hin & Hs).
      destruct (find (fun x => same_slug (slug x) (Some p)) (events w))
        as [event|] eqn:E.
      * exists event. apply find_some in E. destruct E as [Hin' Hs'].
        apply same_slug_eq in Hs'. auto.
      * exfalso. rewrite find_none_slug in E. apply (E e); auto.
  - intros [[err Hc] | [err Hf]].
    + now rewrite Hc.
    + destruct (connected env w); auto. unfold Event_findOne. now rewrite Hf.
  - apply GET_slug_world.
Qed.

(** C8 in a world that stores no event: 404. *)
Lemma GET_slug_statuses_witness :
  connected reachable_env fresh_world = Ok 1%N
  /\ fst (GET_slug reachable_env (js "cloud-next-2026") fresh_world)
     = {| status := 404; body := ErrorBody "Event not found" |}.
Proof.
  split; [reflexivity|].
  destruct (GET_slug_statuses reachable_env (js "cloud-next-2026") fresh_world)
    as (H & _).
  destruct (H 1%N eq_refl eq_refl) as [H404 _].
  apply H404. intros e [].
Defined.

(** C9. The claim fails on the code as soon as one event is stored.
    The query asks to populate [bookings], a path the schema does not
    declare, and the driver refuses it on the documents it found: the
    handler answers 500 with 'Failed to fetch events' for every store
    that holds an event, also when connecting succeeds and the server
    has no fault.  So it does after the candidate record has been
    created with a 201.  Only on the empty store does it answer 200,
    with the empty array. *)
Theorem GET_fails_on_stored_events :
  (forall (env : Env) (k : Mongodb.Connection) (e : IEvent) (evs : list IEvent),
     fst (GET env {| connection := k; events := e :: evs |})
     = {| status := 500; body := ErrorBody "Failed to fetch events" |})
  /\ (let created :=
        POST reachable_env
          (json_request (candidate (Some (js "A conference")) (Some [js "Talk 1"])))
          fresh_world in
      status (fst created) = 201%N
      /\ length (events (snd created)) = 1%nat
      /\ connected reachable_env (snd created) = Ok 1%N
      /\ fault reachable_env = None
      /\ fst (GET reachable_env (snd created))
         = {| status := 500; body := ErrorBody "Failed to fetch events" |})
  /\ fst (GET reachable_env fresh_world)
     = {| status := 200; body := Events [] |}.
Proof.
  split; [|split].
  - intros env k e evs. rewrite GET_answers. simpl.
    destruct (connected env _); [|reflexivity].
    destruct (fault env); reflexivity.
  - repeat split; vm_compute; reflexivity.
  - vm_compute. reflexivity.
Qed.

(** ** The connection manager *)

Module MongodbFacts.
Import Mongodb.

Lemma invariant_start uri k0 :
  load (Some uri) None = Ok k0 -> invariant (start k0).
Proof.
  unfold load. destruct (falsy (Some uri)); [discriminate|].
  intros E. inversion E; subst. unfold invariant. simpl.
  repeat split; try contradiction; discriminate.
Qed.

Lemma single_promise (l : list promise_state) pid st :
  length l = 1%nat -> nth_error l pid = Some st -> pid = 0%nat /\ l = [st].
Proof.
  destruct l as [|x [|y l]]; try discriminate. intros _.
  destruct pid as [|[|pid]]; simpl; try discriminate.
  intros E. inversion E. auto.
Qed.

Lemma invariant_step p q : invariant p -> step p q -> invariant q.
Proof.
  intros (Hp & Ha & Hc & Hr) Hstep.
  destruct Hstep as [c m p Hconn | c p Hconn | pid outcome p Hpid
                    | c pid m l1 l2 p Haw Hpid | c pid e l1 l2 p Haw Hpid];
    unfold invariant; simpl.
  - repeat split; auto. intros c' m' [E | Hin]; eauto. congruence.
  - unfold ensure_promise.
    destruct (promise (cached (mem p))) as [pid|] eqn:Ep; simpl.
    + rewrite Ep. destruct Hp as [-> Hl].
      repeat split; auto.
      intros c' pid' [E | Hin]; eauto. congruence.
    + destruct Hp as [Hl Haw]. rewrite Hl, Haw, Hconn. simpl.
      repeat split; auto.
      * intros c' pid' [E | []]. congruence.
      * discriminate.
      * intros c' m Hin. apply Hr in Hin. congruence.
  - destruct (promise (cached (mem p))) as [pid'|] eqn:Ep.
    + destruct Hp as [-> Hl].
      destruct (@single_promise _ _ _ Hl Hpid) as [-> Hs].
      assert (Hnone : conn (cached (mem p)) = None).
      { destruct (conn (cached (mem p))) as [m|] eqn:Em; auto.
        specialize (Hc m eq_refl). congruence. }
      unfold settle. rewrite Hpid. simpl. rewrite Ep, Hs, Hnone. simpl.
      repeat split; auto.
      * discriminate.
      * intros c m Hin. apply Hr in Hin. congruence.
    + destruct Hp as [Hl _]. rewrite Hl in Hpid.
      destruct pid; discriminate.
  - assert (Hin : In (c, pid) (awaiting p))
      by (rewrite Haw; apply in_or_app; right; left; reflexivity).
    destruct (promise (cached (mem p))) as [pid'|] eqn:Ep.
    + destruct Hp as [-> Hl].
      destruct (@single_promise _ _ _ Hl Hpid) as [-> Hs].
      repeat split; auto.
      * intros c' pid' Hin'. apply (Ha c').
        rewrite Haw. apply in_app_or in Hin'. apply in_or_app.
        destruct Hin'; auto. right; right; auto.
      * intros m' E. congruence.
      * intros c' m' [E | Hin'].
        -- congruence.
        -- apply Hr in Hin'. specialize (Hc _ Hin'). congruence.
    + destruct Hp as [_ Hnil]. rewrite Hnil in Hin. contradiction.
  - repeat split; auto.
    + destruct (promise (cached (mem p))); auto.
      destruct Hp as [Hl Hnil]. rewrite Hnil in Haw.
      destruct l1; discriminate.
    + intros c' pid' Hin'. apply (Ha c').
      rewrite Haw. apply in_app_or in Hin'. apply in_or_app.
      destruct Hin'; auto. right; right; auto.
    + intros c' m' [E | Hin']; eauto. discriminate.
Qed.

Lemma invariant_steps p q : invariant p -> steps p q -> invariant q.
Proof.
  intros Hp Hs. induction Hs as [|p q r Hs IH Hst]; [assumption|].
  eapply invariant_step; [apply IH; assumption | exact Hst].
Qed.

Lemma first_step k0 q :
  cached k0 = {| conn := None; promise := None |} -> promises k0 = [] ->
  step (start k0) q ->
  exists c, q = {| mem := {| cached := {| conn := None; promise := Some 0%nat |};
                             promises := [Pending] |};
                   awaiting := [(c, 0%nat)];
                   returned := [] |}.
Proof.
  intros Hc Hp Hstep.
  inversion Hstep as [c m p Hconn | c p Hconn | pid outcome p Hpid
                     | c pid m l1 l2 p Haw Hpid | c pid e l1 l2 p Haw Hpid];
    subst; simpl in *.
  - rewrite Hc in Hconn. discriminate.
  - exists c. unfold ensure_promise. rewrite Hc, Hp. reflexivity.
  - rewrite Hp in Hpid. destruct pid; discriminate.
  - destruct l1; discriminate.
  - destruct l1; discriminate.
Qed.

End MongodbFacts.

(** C10. In a process whose module has loaded with a connection string,
    whatever the order in which calls start, the attempt settles and
    suspended callers resume: [mongoose.connect] is called once at most;
    the first call makes the one pending attempt; every caller that has
    to wait waits for that attempt, which is the one in the cache; all
    handles returned are one and the same, the handle in the cache.
    Without the connection string the module does not load. *)
Theorem connection_established_once :
  forall (uri : jsstring) (k0 : Mongodb.Connection) (p : Mongodb.Process),
  Mongodb.load (Some uri) None = Ok k0 ->
  Mongodb.steps (Mongodb.start k0) p ->
  (length (Mongodb.promises (Mongodb.mem p)) <= 1)%nat
  /\ (forall q, Mongodb.step (Mongodb.start k0) q ->
      Mongodb.promises (Mongodb.mem q) = [Mongodb.Pending]
      /\ exists c, Mongodb.awaiting q = [(c, 0%nat)])
  /\ (forall c pid, In (c, pid) (Mongodb.awaiting p) ->
      pid = 0%nat
      /\ Mongodb.promise (Mongodb.cached (Mongodb.mem p)) = Some 0%nat)
  /\ (forall c m, In (c, Ok m) (Mongodb.returned p) ->
      Mongodb.conn (Mongodb.cached (Mongodb.mem p)) = Some m
      /\ Mongodb.promises (Mongodb.mem p) = [Mongodb.Fulfilled m])
  /\ (forall c1 c2 m1 m2,
      In (c1, Ok m1) (Mongodb.returned p) ->
      In (c2, Ok m2) (Mongodb.returned p) -> m1 = m2)
  /\ (forall global,
      Mongodb.load None global
      = Throw (EError "Missing environment variable: MONGODB_URI")).
Proof.
  intros uri k0 p Hload Hsteps.
  pose proof (MongodbFacts.invariant_steps
                (MongodbFacts.invariant_start _ Hload) Hsteps)
    as (Hp & Ha & Hc & Hr).
  split; [|split; [|split; [|split; [|split]]]].
  - destruct (Mongodb.promise (Mongodb.cached (Mongodb.mem p))).
    + destruct Hp as [_ ->]. auto.
    + destruct Hp as [-> _]. simpl. auto.
  - intros q Hq.
    assert (Hk : Mongodb.cached k0
                 = {| Mongodb.conn := None; Mongodb.promise := None |}
                 /\ Mongodb.promises k0 = []).
    { unfold Mongodb.load in Hload. destruct (falsy (Some uri)); [discriminate|].
      inversion Hload; subst. auto. }
    destruct Hk as [Hk1 Hk2].
    destruct (MongodbFacts.first_step Hk1 Hk2 Hq) as [c ->]. simpl. eauto.
  - intros c pid Hin. split; [eapply Ha; eauto|].
    destruct (Mongodb.promise (Mongodb.cached (Mongodb.mem p))).
    + destruct Hp as [-> _]. reflexivity.
    + destruct Hp as [_ Hnil]. rewrite Hnil in Hin. contradiction.
  - intros c m Hin. split; eauto.
  - intros c1 c2 m1 m2 H1 H2. apply Hr in H1, H2. congruence.
  - reflexivity.
Qed.

Section Runs.
Import Mongodb.

Lemma steps_first p q r : step p q -> steps q r -> steps p r.
Proof.
  intros Hpq Hqr. induction Hqr as [|q r s Hqr IH Hrs].
  - eapply steps_next; [apply steps_refl | exact Hpq].
  - eapply steps_next; [apply IH; exact Hpq | exact Hrs].
Qed.

(** Two calls, the attempt settles, the second caller resumes, then the
    first, then a third call. *)
Lemma three_calls :
  steps (start (connection fresh_world)) after_three_calls.
Proof.
  eapply steps_first; [apply (@step_miss 1%nat); reflexivity|]. simpl.
  eapply steps_first; [apply (@step_miss 2%nat); reflexivity|]. simpl.
  eapply steps_first;
    [apply (@step_settle 0%nat (Ok 7%N)); reflexivity|]. simpl.
  eapply steps_first;
    [apply (@step_resume 2%nat 0%nat 7%N [] [(1%nat, 0%nat)]); reflexivity|].
  simpl.
  eapply steps_first;
    [apply (@step_resume 1%nat 0%nat 7%N [] []); reflexivity|]. simpl.
  eapply steps_first; [apply (@step_hit 3%nat 7%N); reflexivity|]. simpl.
  apply steps_refl.
Defined.

(** The call the handlers make, [await connectToDatabase()] with nothing
    else running in between, is a run of the event loop: the call, the
    settlement of the attempt if it is pending, the resumption. *)
Lemma connectToDatabase_run (c : nat) (outcome : result Mongoose) (p : Process) :
  invariant p ->
  exists q, steps p q
            /\ mem q = snd (connectToDatabase outcome (mem p))
            /\ returned q = (c, fst (connectToDatabase outcome (mem p))) :: returned p
            /\ awaiting q = awaiting p.
Proof.
  destruct p as [[[cn pr] ps] aw rt].
  intros (Hp & _ & _ & _). unfold connectToDatabase. simpl in *.
  destruct cn as [m|].
  - eexists. split; [eapply steps_first; [apply (@step_hit c m); reflexivity
                                         | apply steps_refl]|].
    simpl. auto.
  - assert (Hps : (pr = None /\ ps = [] /\ aw = [])
                  \/ (pr = Some 0%nat /\ exists st, ps = [st])).
    { destruct pr as [pid|].
      - right. destruct Hp as [-> Hl].
        destruct ps as [|st [|? ?]]; try discriminate. eauto.
      - left. destruct Hp. auto. }
    clear Hp.
    destruct Hps as [(-> & -> & ->) | (-> & st & ->)].
    + destruct outcome as [m|e].
      * eexists. split.
        { eapply steps_first; [apply (@step_miss c); reflexivity|].
          eapply steps_first; [apply (@step_settle 0%nat (Ok m)); reflexivity|].
          eapply steps_first;
            [apply (@step_resume c 0%nat m [] []); reflexivity|].
          apply steps_refl. }
        simpl. auto.
      * eexists. split.
        { eapply steps_first; [apply (@step_miss c); reflexivity|].
          eapply steps_first;
            [apply (@step_settle 0%nat (Throw e)); reflexivity|].
          eapply steps_first;
            [apply (@step_reject c 0%nat e [] []); reflexivity|].
          apply steps_refl. }
        simpl. auto.
    + destruct st as [|m|e].
      * destruct outcome as [m|e].
        -- eexists. split.
           { eapply steps_first; [apply (@step_miss c); reflexivity|].
             eapply steps_first;
               [apply (@step_settle 0%nat (Ok m)); reflexivity|].
             eapply steps_first;
               [apply (@step_resume c 0%nat m [] aw); reflexivity|].
             apply steps_refl. }
           simpl. auto.
        -- eexists. split.
           { eapply steps_first; [apply (@step_miss c); reflexivity|].
             eapply steps_first;
               [apply (@step_settle 0%nat (Throw e)); reflexivity|].
             eapply steps_first;
               [apply (@step_reject c 0%nat e [] aw); reflexivity|].
             apply steps_refl. }
           simpl. auto.
      * eexists. split.
        { eapply steps_first; [apply (@step_miss c); reflexivity|].
          eapply steps_first;
            [apply (@step_resume c 0%nat m [] aw); reflexivity|].
          apply steps_refl. }
        simpl. auto.
      * eexists. split.
        { eapply steps_first; [apply (@step_miss c); reflexivity|].
          eapply steps_first;
            [apply (@step_reject c 0%nat e [] aw); reflexivity|].
          apply steps_refl. }
        simpl. auto.
Qed.

End Runs.

(** C10 on a run of three calls. *)
Lemma connection_established_once_witness :
  Mongodb.load (Some (js "mongodb://localhost:27017/app")) None
  = Ok (connection fresh_world)
  /\ Mongodb.steps (Mongodb.start (connection fresh_world)) after_three_calls
  /\ (length (Mongodb.promises (Mongodb.mem after_three_calls)) <= 1)%nat
  /\ (forall c1 c2 m1 m2,
      In (c1, Ok m1) (Mongodb.returned after_three_calls) ->
      In (c2, Ok m2) (Mongodb.returned after_three_calls) -> m1 = m2).
Proof.
  split; [reflexivity|]. split; [exact three_calls|].
  destruct (@connection_established_once
              (js "mongodb://localhost:27017/app") (connection fresh_world)
              after_three_calls eq_refl three_calls)
    as (Hone & _ & _ & _ & Hsame & _).
  split; [exact Hone | exact Hsame].
Defined.


(* ================================================================= *)
(** * Further properties of the code *)

Unset Implicit Arguments.

(** ** Slugs are fixed points *)

Section SlugFixed.

Lemma slug_char_not_space c : slug_char c -> is_space c = false.
Proof.
  intros [H | ->]; [|reflexivity].
  assert (Hc : (48 <= c <= 57 \/ 97 <= c <= 122)%N).
  { unfold is_lower_alnum, is_digit in H.
    apply orb_true_iff in H. destruct H as [H | H];
      apply andb_true_iff in H; destruct H as [H1 H2];
      apply N.leb_le in H1, H2; lia. }
  clear H. unfold is_space. prune_tests; reflexivity.
Qed.

Lemma dropWhile_keep p c s : p c = false -> dropWhile p (c :: s) = c :: s.
Proof. intros H. simpl. now rewrite H. Qed.

Lemma dropWhileEnd_keep p s c :
  p c = false -> dropWhileEnd p (s ++ [c]) = s ++ [c].
Proof.
  intros H. unfold dropWhileEnd. rewrite rev_app_distr. simpl. rewrite H.
  simpl. now rewrite rev_involutive.
Qed.

(** A string with nothing to strip at either end is left as it is. *)
Lemma strip_edges_keep p s :
  (forall c s', s = c :: s' -> p c = false) ->
  (forall c s', s = s' ++ [c] -> p c = false) ->
  strip_edges p s = s.
Proof.
  intros Hhead Hlast. unfold strip_edges.
  destruct s as [|c s]; [reflexivity|].
  rewrite (dropWhile_keep _ _ _ (Hhead c s eq_refl)).
  destruct (exists_last (l := c :: s)) as (s' & d & E); [discriminate|].
  rewrite E. apply dropWhileEnd_keep. eapply Hlast; eauto.
Qed.

Lemma scan_runs_id s : forall run,
  run = [] \/ run = [hyphen] ->
  Forall slug_char s -> no_double (run ++ s) ->
  scan not_lower_alnum 1 (js "-") run s = run ++ s.
Proof.
  induction s as [|c s IH]; intros run Hrun Hs Hd; simpl.
  - destruct Hrun as [-> | ->]; reflexivity.
  - inversion Hs as [|? ? Hc Hs']; subst.
    destruct (not_lower_alnum c) eqn:Ec.
    + assert (c = hyphen).
      { destruct Hc as [Hc | Hc]; auto.
        unfold not_lower_alnum in Ec. rewrite Hc in Ec. discriminate. }
      subst c. destruct Hrun as [-> | ->].
      * simpl. rewrite IH; auto.
      * simpl in Hd. tauto.
    + destruct Hrun as [-> | ->]; simpl.
      * f_equal. apply (IH []); auto. simpl in Hd. destruct s; simpl; tauto.
      * f_equal. f_equal. apply (IH []); auto.
        simpl in Hd. destruct Hd as [_ Hd]. destruct s; simpl; tauto.
Qed.

Lemma replacements_is_slug x : is_slug (replacements x).
Proof.
  split; [apply replacements_chars|].
  rewrite replacements_stripped. split; [|split].
  - intros s E. apply strip_edges_head in E. discriminate.
  - intros s E. unfold strip_edges in E. apply dropWhileEnd_last in E.
    discriminate.
  - destruct (strip_edges_infix is_hyphen
                (replace_runs not_lower_alnum 1 (js "-") x)) as (pre & post & E).
    apply (@NoDouble_infix pre _ post). rewrite <- E.
    apply no_double_NoDouble, scan_runs_no_double.
Qed.

Lemma is_slug_edges s :
  is_slug s ->
  (forall p, p hyphen = false ->
     (forall c, slug_char c -> c <> hyphen -> p c = false) ->
     strip_edges p s = s)
  /\ strip_edges is_hyphen s = s.
Proof.
  intros (Hc & Hhead & Hlast & _). rewrite Forall_forall in Hc. split.
  - intros p Hp Hother. apply strip_edges_keep.
    + intros c s' ->. destruct (N.eq_dec c hyphen) as [->|Hn]; auto.
      apply Hother; auto. apply Hc. left; reflexivity.
    + intros c s' ->. destruct (N.eq_dec c hyphen) as [->|Hn]; auto.
      apply Hother; auto. apply Hc. apply in_or_app. right; left; reflexivity.
  - apply strip_edges_keep.
    + intros c s' ->. destruct (is_hyphen c) eqn:E; auto.
      apply N.eqb_eq in E. subst c. exfalso. eapply Hhead; eauto.
    + intros c s' ->. destruct (is_hyphen c) eqn:E; auto.
      apply N.eqb_eq in E. subst c. exfalso. eapply Hlast; eauto.
Qed.

Lemma slugify_keeps_slug s : is_slug s -> slugify s = s.
Proof.
  intros Hs. pose proof Hs as (Hc & Hhead & Hlast & Hd).
  unfold slugify. rewrite (toLowerCase_slug_chars Hc).
  assert (Et : trim s = s).
  { destruct (is_slug_edges s Hs) as [H _]. apply (H is_space); [reflexivity|].
    intros c Hsc _. now apply slug_char_not_space. }
  rewrite Et.
  assert (E1 : replace_runs not_lower_alnum 1 (js "-") s = s).
  { apply (scan_runs_id s []); auto. simpl.
    now apply NoDouble_no_double. }
  rewrite E1. destruct (is_slug_edges s Hs) as [_ E2]. rewrite E2.
  apply (scan_collapse_id _ (run := [])); auto. simpl.
  now apply NoDouble_no_double.
Qed.

End SlugFixed.

(** X1. The slugs are exactly the fixed points of [slugify]: a slug is
    left as it is, every result is a slug, and so slugifying twice is
    slugifying once. *)
Theorem slugify_fixed_points : forall s : jsstring,
  (is_slug s <-> slugify s = s)
  /\ slugify (slugify s) = slugify s.
Proof.
  intros s.
  assert (H : forall x, is_slug (slugify x))
    by (intros x; apply replacements_is_slug).
  split; [split|].
  - apply slugify_keeps_slug.
  - intros E. rewrite <- E. apply H.
  - apply slugify_keeps_slug, H.
Qed.

(** ** What a slug keeps of the title *)

Section SlugLetters.








End SlugLetters.


(** ** Times in canonical form *)

Section TimeFixed.

Lemma lower_unit_low c : (c < 65)%N -> lower_unit c = [c].
Proof. intros H. unfold lower_unit. prune_tests; reflexivity. Qed.

Lemma toLowerCase_low s : Forall (fun c => (c < 65)%N) s -> toLowerCase s = s.
Proof.
  induction 1 as [|c s Hc _ IH]; simpl; auto.
  rewrite (lower_unit_low c Hc). simpl. now rewrite IH.
Qed.

Lemma digit_low c : is_digit c = true -> (c < 65)%N.
Proof.
  unfold is_digit. intros H. apply andb_true_iff in H. destruct H as [_ H].
  apply N.leb_le in H. lia.
Qed.

Lemma digit_not_space c : is_digit c = true -> is_space c = false.
Proof.
  intros H. destruct (is_space c) eqn:E; auto.
  rewrite (@space_not_digit c E) in H. discriminate.
Qed.

Lemma parseInt10_two_digits n : (n < 100)%N -> parseInt10 (two_digits n) = n.
Proof.
  intros H. unfold parseInt10, two_digits. cbn [fold_left].
  assert (E : n = (10 * (n / 10) + n mod 10)%N) by (apply N.div_mod; lia).
  set (q := (n / 10)%N) in *. set (r := (n mod 10)%N) in *. lia.
Qed.

(** The canonical form of the time [H]:[M]. *)
Lemma canonical_time H M :
  (H < 100)%N -> (M < 100)%N ->
  let out := two_digits H ++ colon :: two_digits M in
  toLowerCase (trim out) = out
  /\ ColonShape out (two_digits H) (two_digits M).
Proof.
  intros HH HM out.
  destruct (@two_digits_are_digits H HH) as [Hd1 Hl1].
  destruct (@two_digits_are_digits M HM) as [Hd2 Hl2].
  assert (Hshape : ColonShape out (two_digits H) (two_digits M)).
  { split; [exact Hd1|]. split; [right; exact Hl1|].
    split; [exact Hd2|]. split; [exact Hl2|].
    exists []. split; [left; reflexivity|]. subst out.
    now rewrite app_nil_r. }
  split; [|exact Hshape].
  assert (Hdigits : Forall (fun c => is_digit c = true \/ c = colon) out).
  { subst out. apply Forall_app. split.
    - eapply Forall_impl; [|exact Hd1]. auto.
    - constructor; [right; reflexivity|].
      eapply Forall_impl; [|exact Hd2]. auto. }
  assert (Htrim : trim out = out).
  { apply (strip_edges_keep is_space).
    - intros c s' E. subst out. unfold two_digits in E. simpl in E.
      inversion E; subst. apply digit_not_space.
      inversion Hd1; assumption.
    - intros c s' E. subst out. unfold two_digits in E.
      change ([48 + H / 10; 48 + H mod 10] ++ colon :: [48 + M / 10; 48 + M mod 10])%N
        with ([48 + H / 10; 48 + H mod 10; colon; 48 + M / 10] ++ [48 + M mod 10])%N
        in E.
      apply app_inj_tail in E. destruct E as [_ <-].
      apply digit_not_space.
      inversion Hd2 as [|? ? _ Hd2']; subst. inversion Hd2'; assumption. }
  rewrite Htrim. apply toLowerCase_low.
  eapply Forall_impl; [|exact Hdigits].
  intros c [Hc | ->]; [now apply digit_low | reflexivity].
Qed.

End TimeFixed.

(** X3. A result of [normalizeTime] is in canonical form: normalising it
    again gives the same string. *)
Theorem normalizeTime_idempotent : forall value out : jsstring,
  normalizeTime value = Ok out -> normalizeTime out = Ok out.
Proof.
  intros value out E.
  destruct (@normalizeTime_output value out E) as (H & M & [HH HM] & ->).
  destruct (canonical_time H M) as [Hv Hshape]; try lia.
  cbv zeta in Hv, Hshape.
  rewrite (normalizeTime_colon (two_digits H ++ colon :: two_digits M))
    with (h := two_digits H) (m := two_digits M)
    by (rewrite Hv; exact Hshape).
  rewrite !parseInt10_two_digits by lia.
  destruct (N.ltb_spec 23 H); [lia|].
  destruct (N.ltb_spec 59 M); [lia|]. reflexivity.
Qed.

(** X3 on "9 PM", whose canonical form is "21:00". *)
Lemma normalizeTime_idempotent_witness :
  normalizeTime (js "9 PM") = Ok (js "21:00")
  /\ normalizeTime (js "21:00") = Ok (js "21:00").
Proof.
  split; [reflexivity|].
  apply (normalizeTime_idempotent (js "9 PM")). reflexivity.
Defined.

(** ** Trimming *)

Section Trim.

Lemma trim_idempotent s : trim (trim s) = trim s.
Proof.
  apply (strip_edges_keep is_space).
  - intros c s' E. exact (@strip_edges_head is_space s c s' E).
  - intros c s' E. exact (@dropWhileEnd_last is_space _ c s' E).
Qed.

Lemma dropWhileEnd_split p s :
  exists suf, Forall (fun c => p c = true) suf /\ s = dropWhileEnd p s ++ suf.
Proof.
  unfold dropWhileEnd. destruct (dropWhile_split p (rev s)) as (pre & Hp & E).
  exists (rev pre). split.
  - apply Forall_forall. intros c Hin. apply in_rev in Hin.
    rewrite Forall_forall in Hp. now apply Hp.
  - rewrite <- rev_app_distr, <- E. now rewrite rev_involutive.
Qed.

(** What [trim] takes away is white space. *)
Lemma trim_split s :
  exists pre suf, Forall (fun c => is_space c = true) pre
                  /\ Forall (fun c => is_space c = true) suf
                  /\ s = pre ++ trim s ++ suf.
Proof.
  destruct (dropWhile_split is_space s) as (pre & Hpre & E).
  destruct (dropWhileEnd_split is_space (dropWhile is_space s))
    as (suf & Hsuf & E').
  exists pre, suf. repeat split; auto. unfold trim. now rewrite <- E'.
Qed.

Lemma trim_keeps c s : In c s -> is_space c = false -> In c (trim s).
Proof.
  intros Hin Hc. destruct (trim_split s) as (pre & suf & Hpre & Hsuf & E).
  rewrite E in Hin. rewrite Forall_forall in Hpre, Hsuf.
  apply in_app_or in Hin. destruct Hin as [Hin | Hin].
  - apply Hpre in Hin. congruence.
  - apply in_app_or in Hin. destruct Hin as [Hin | Hin]; auto.
    apply Hsuf in Hin. congruence.
Qed.

Lemma nonblank_with c s :
  In c s -> is_space c = false -> nonEmptyString (Some s) = true.
Proof.
  intros Hin Hc. pose proof (trim_keeps c s Hin Hc) as H. simpl.
  destruct (trim s); [contradiction | reflexivity].
Qed.

End Trim.

(** ** What the hook does to a document *)

Section HookEffect.
Variable Date_parse : jsstring -> option Z.

(** The paths after a normalisation that went through. *)
(** The names of the paths are compared as they stand. *)
#[local] Opaque String.eqb.

Lemma normalise_paths this this' :
  normalise Date_parse this = Ok this' ->
  modifiedPaths this' = modifiedPaths this
  /\ exists s d t,
       paths this'
       = with_tags
           (with_agenda (with_time (with_date (with_slug (paths this) s) d) t)
              (option_map clean_entries (agenda (paths this))))
           (option_map clean_entries (tags (paths this)))
       /\ (if isModified this "title" || falsy (slug (paths this))
           then exists ti, title (paths this) = Some ti /\ s = Some (slugify ti)
           else s = slug (paths this))
       /\ (if isModified this "date"
           then exists v out, date (paths this) = Some v
                              /\ normalizeDate Date_parse v = Ok out
                              /\ d = Some out
           else d = date (paths this))
       /\ (if isModified this "time"
           then exists v out, time (paths this) = Some v
                              /\ normalizeTime v = Ok out /\ t = Some out
           else t = time (paths this)).
Proof.
  destruct this as [e mods].
  destruct e as [ti sl de ov im ve lo da tm mo au ag org tg].
  unfold normalise, isModified, assign, bind, call_on. simpl.
  destruct (existsb (String.eqb "title") mods || falsy sl);
    [destruct ti as [ti|]; [|simpl; intros E; discriminate E]|];
    simpl;
    (destruct (existsb (String.eqb "date") mods);
     [destruct da as [da|]; [|simpl; intros E; discriminate E];
      destruct (normalizeDate Date_parse da) as [dout|] eqn:Ed;
      [|simpl; intros E; discriminate E]|]);
    simpl;
    (destruct (existsb (String.eqb "time") mods);
     [destruct tm as [tm|]; [|simpl; intros E; discriminate E];
      destruct (normalizeTime tm) as [tout|] eqn:Et;
      [|simpl; intros E; discriminate E]|]);
    simpl;
    intros E; inversion E; subst; clear E;
    (split; [destruct ag, tg; reflexivity|]);
    do 3 eexists;
    (split; cycle 1;
     [repeat match goal with
        | |- _ /\ _ => split
        | |- exists _, _ => eexists
        end; first [reflexivity | eassumption]
     | destruct ag, tg; reflexivity]).
Qed.

#[local] Transparent String.eqb.

End HookEffect.

(** X4. What a successful run of the hook changes: nothing but slug,
    date, time and the two arrays.  The slug is recomputed from the title
    exactly when the title is modified or the slug is missing or empty;
    date and time are replaced by their normal forms exactly when they
    are modified. *)
Theorem pre_save_effect :
  forall (Date_parse : jsstring -> option Z) (this this' : EventDocument),
  pre_save Date_parse this = Ok this' ->
  (title (paths this') = title (paths this)
   /\ description (paths this') = description (paths this)
   /\ overview (paths this') = overview (paths this)
   /\ image (paths this') = image (paths this)
   /\ venue (paths this') = venue (paths this)
   /\ location (paths this') = location (paths this)
   /\ mode (paths this') = mode (paths this)
   /\ audience (paths this') = audience (paths this)
   /\ organizer (paths this') = organizer (paths this))
  /\ (isModified this "title" || falsy (slug (paths this)) = true ->
      exists ti, title (paths this) = Some ti
                 /\ slug (paths this') = Some (slugify ti))
  /\ (isModified this "title" || falsy (slug (paths this)) = false ->
      slug (paths this') = slug (paths this))
  /\ (isModified this "date" = true ->
      exists v out, date (paths this) = Some v
                    /\ normalizeDate Date_parse v = Ok out
                    /\ date (paths this') = Some out)
  /\ (isModified this "date" = false -> date (paths this') = date (paths this))
  /\ (isModified this "time" = true ->
      exists v out, time (paths this) = Some v
                    /\ normalizeTime v = Ok out
                    /\ time (paths this') = Some out)
  /\ (isModified this "time" = false -> time (paths this') = time (paths this)).
Proof.
  intros Date_parse this this' H.
  apply pre_save_ok in H. destruct H as [Hn _].
  apply normalise_paths in Hn.
  destruct Hn as (_ & s & d & t & Hp & Hs & Hd & Ht).
  rewrite Hp. simpl. split; [repeat split|].
  split; [intros E; rewrite E in Hs; exact Hs|].
  split; [intros E; rewrite E in Hs; exact Hs|].
  split; [intros E; rewrite E in Hd; exact Hd|].
  split; [intros E; rewrite E in Hd; exact Hd|].
  split; [intros E; rewrite E in Ht; exact Ht|].
  intros E; rewrite E in Ht; exact Ht.
Qed.

(** X4 on the candidate document: it has no slug, so the slug is derived
    from the title. *)
Lemma pre_save_effect_witness :
  exists this',
    pre_save (host_Date_parse 0)
      (candidate_document (Some (js "A conference")) (Some [js "Talk 1"]))
    = Ok this'
    /\ slug (paths this') = Some (js "cloud-next-2026").
Proof.
  destruct (pre_save (host_Date_parse 0)
              (candidate_document (Some (js "A conference")) (Some [js "Talk 1"])))
    as [this'|e] eqn:E; [|vm_compute in E; discriminate].
  exists this'. split; [reflexivity|].
  destruct (pre_save_effect _ _ _ E) as (_ & Hslug & _).
  destruct (Hslug eq_refl) as (ti & Hti & ->).
  inversion Hti; subst. reflexivity.
Defined.

(** ** Validated documents *)

Section Validated.
Variable Date_parse : jsstring -> option Z.

Lemma validate_string_ok path message v :
  validate_string path message v = [] -> nonEmptyString v = true.
Proof.
  unfold validate_string. destruct (falsy v); [discriminate|].
  destruct (nonEmptyString v); [reflexivity | discriminate].
Qed.

Lemma validate_array_ok path message v :
  validate_array path message v = [] -> arrayOfNonEmptyStrings v = true.
Proof.
  unfold validate_array. destruct v as [a|]; [|discriminate].
  destruct (arrayOfNonEmptyStrings (Some a)); [reflexivity | discriminate].
Qed.

(** What the validation establishes. *)
Lemma validate_ok this :
  validate this = Ok tt ->
  Forall (filled (paths this)) requiredStrings
  /\ arrayOfNonEmptyStrings (agenda (paths this)) = true
  /\ arrayOfNonEmptyStrings (tags (paths this)) = true.
Proof.
  unfold validate.
  destruct (validation_errors this) eqn:E; [|discriminate].
  intros _. pose proof (validation_errors_nil this E) as Hnil.
  assert (Hs : forall path message v,
            In (string_path path message v) (validated_paths (paths this)) ->
            nonEmptyString v = true).
  { intros path message v Hin.
    apply (validate_string_ok path message). exact (Hnil _ Hin). }
  assert (Ha : forall path message v,
            In (array_path path message v) (validated_paths (paths this)) ->
            arrayOfNonEmptyStrings v = true).
  { intros path message v Hin.
    apply (validate_array_ok path message). exact (Hnil _ Hin). }
  unfold validated_paths in Hs, Ha.
  split; [|split].
  - unfold requiredStrings, filled.
    repeat (apply Forall_cons;
            [eapply Hs; cbn [get_string]; simpl String.eqb; cbv iota;
             auto 20 using in_eq, in_cons|]).
    constructor.
  - eapply Ha. do 10 right. left. reflexivity.
  - eapply Ha. do 12 right. left. reflexivity.
Qed.

Lemma clean_valid a :
  forallb (fun v => (0 <? length (trim v))%nat) a = true ->
  clean_entries a = map trim a.
Proof.
  unfold clean_entries. induction a as [|x a IH]; simpl; auto.
  intros H. apply andb_true_iff in H. destruct H as [Hx Ha].
  rewrite Hx. now rewrite IH.
Qed.

Lemma valid_array_cleaned v :
  arrayOfNonEmptyStrings v = true ->
  empty_array (option_map clean_entries v) = false.
Proof.
  destruct v as [a|]; [|discriminate]. simpl.
  intros H. apply andb_true_iff in H. destruct H as [Hl Ha].
  rewrite (clean_valid a Ha). rewrite length_map.
  destruct a; [discriminate | reflexivity].
Qed.

Lemma normalizeDate_nonblank v out :
  normalizeDate Date_parse v = Ok out -> nonEmptyString (Some out) = true.
Proof.
  unfold normalizeDate. destruct (Date_parse (trim v)); [|discriminate].
  intros E. inversion E. apply (nonblank_with hyphen); [|reflexivity].
  apply in_or_app. right. left. reflexivity.
Qed.

Lemma normalizeTime_nonblank v out :
  normalizeTime v = Ok out -> nonEmptyString (Some out) = true.
Proof.
  intros E. destruct (@normalizeTime_output v out E) as (H & M & _ & ->).
  apply (nonblank_with colon); [|reflexivity].
  apply in_or_app. right. left. reflexivity.
Qed.

Lemma normalizeTime_errors v e :
  normalizeTime v = Throw e ->
  e = EError "Invalid time value" \/ e = EError "Invalid time hour"
  \/ e = EError "Invalid time format".
Proof.
  unfold normalizeTime.
  destruct (match_colon _) as [[c1 c2]|].
  - destruct (_ || _ || _ || _); intros E; inversion E; auto.
  - destruct (match_ampm _) as [[a1 suffix]|].
    + destruct (_ || _); intros E; inversion E; auto.
    + intros E; inversion E; auto.
Qed.

Lemma filled_some e key :
  filled e key -> exists v, get_string e key = Some v.
Proof.
  unfold filled, nonEmptyString.
  destruct (get_string e key) as [v|]; [eauto | discriminate].
Qed.

(** After the validation the re-check of the hook finds nothing. *)
Lemma recheck_after_validate this this' :
  validate this = Ok tt ->
  normalise Date_parse this = Ok this' ->
  recheck this' = Ok tt.
Proof.
  intros Hv Hn. apply validate_ok in Hv. destruct Hv as (Hall & Hag & Htg).
  apply normalise_paths in Hn.
  destruct Hn as (_ & s & d & t & Hp & _ & Hd & Ht).
  assert (Hd' : nonEmptyString d = true).
  { destruct (isModified this "date").
    - destruct Hd as (v & out & _ & Hout & ->).
      eapply normalizeDate_nonblank; eauto.
    - subst d. unfold requiredStrings in Hall.
      repeat match goal with
        | H : Forall _ (_ :: _) |- _ => inversion H; clear H; subst
        end. assumption. }
  assert (Ht' : nonEmptyString t = true).
  { destruct (isModified this "time").
    - destruct Ht as (v & out & _ & Hout & ->).
      eapply normalizeTime_nonblank; eauto.
    - subst t. unfold requiredStrings in Hall.
      repeat match goal with
        | H : Forall _ (_ :: _) |- _ => inversion H; clear H; subst
        end. assumption. }
  unfold recheck, bind. rewrite check_required_all.
  - rewrite Hp. simpl.
    rewrite (valid_array_cleaned _ Hag), (valid_array_cleaned _ Htg).
    reflexivity.
  - rewrite Hp. unfold requiredStrings in *.
    repeat match goal with
      | H : Forall _ (_ :: _) |- _ => inversion H; clear H; subst
      end.
    unfold filled in *. repeat constructor; assumption.
Qed.

Lemma normalizeDate_error v e :
  normalizeDate Date_parse v = Throw e -> e = EError "Invalid date format".
Proof.
  unfold normalizeDate. destruct (Date_parse (trim v)); [discriminate|].
  intros E. now inversion E.
Qed.

(** A validated document has a title, a date and a time. *)
Lemma validated_present this :
  validate this = Ok tt ->
  exists ti da tm, title (paths this) = Some ti
                   /\ date (paths this) = Some da
                   /\ time (paths this) = Some tm.
Proof.
  intros Hv. apply validate_ok in Hv. destruct Hv as (Hall & _).
  unfold requiredStrings in Hall.
  repeat match goal with
    | H : Forall _ (_ :: _) |- _ => inversion H; clear H; subst
    end.
  repeat match goal with
    | H : filled _ _ |- _ => apply filled_some in H; destruct H
    end.
  eauto 10.
Qed.

#[local] Opaque String.eqb.

(** Why the normalisation of a validated document can fail. *)
Lemma normalise_failure this e :
  validate this = Ok tt ->
  normalise Date_parse this = Throw e ->
  e = EError "Invalid date format" \/ e = EError "Invalid time value"
  \/ e = EError "Invalid time hour" \/ e = EError "Invalid time format".
Proof.
  intros Hv. apply validated_present in Hv.
  destruct Hv as (ti & da & tm & Hti & Hda & Htm).
  destruct this as [p mods].
  destruct p as [ti' sl de ov im ve lo da' tm' mo au ag org tg].
  simpl in Hti, Hda, Htm. subst.
  unfold normalise, isModified, assign, bind, call_on. simpl.
  destruct (existsb (String.eqb "title") mods || falsy sl); simpl;
    (destruct (existsb (String.eqb "date") mods);
     [destruct (normalizeDate Date_parse da) as [dout|ed] eqn:Ed;
      [|simpl; intros E; inversion E; subst; left;
        eapply normalizeDate_error; eauto]|]);
    simpl;
    (destruct (existsb (String.eqb "time") mods);
     [destruct (normalizeTime tm) as [tout|et] eqn:Et;
      [|simpl; intros E; inversion E; subst; right;
        eapply normalizeTime_errors; eauto]|]);
    simpl; intros E; destruct ag, tg; discriminate E.
Qed.

#[local] Transparent String.eqb.

End Validated.

Section ValidatedHook.
Variable Date_parse : jsstring -> option Z.

Lemma pre_save_validated this :
  validate this = Ok tt ->
  (forall this', normalise Date_parse this = Ok this' ->
     pre_save Date_parse this = Ok this')
  /\ (forall e, pre_save Date_parse this = Throw e ->
      e = EError "Invalid date format" \/ e = EError "Invalid time value"
      \/ e = EError "Invalid time hour" \/ e = EError "Invalid time format").
Proof.
  intros Hv. split.
  - intros this' Hn. rewrite pre_save_body, Hn.
    now rewrite (recheck_after_validate Date_parse this this' Hv Hn).
  - intros e. rewrite pre_save_body.
    destruct (normalise Date_parse this) as [this'|err] eqn:Hn.
    + now rewrite (recheck_after_validate Date_parse this this' Hv Hn).
    + intros E. inversion E; subst.
      destruct (normalise_failure Date_parse this err Hv Hn)
        as [-> | [-> | [-> | ->]]]; simpl; auto.
Qed.

End ValidatedHook.

(** X5. On a document that has passed the validation of the schema the
    re-check of the hook never fails: the hook succeeds as soon as slug,
    date and time normalise, and otherwise throws one of the four errors
    of [normalizeDate] and [normalizeTime]. *)
Theorem validated_document_hook :
  forall (Date_parse : jsstring -> option Z) (this : EventDocument),
  validate this = Ok tt ->
  (forall this', normalise Date_parse this = Ok this' ->
     recheck this' = Ok tt /\ pre_save Date_parse this = Ok this')
  /\ (forall e, pre_save Date_parse this = Throw e ->
      e = EError "Invalid date format" \/ e = EError "Invalid time value"
      \/ e = EError "Invalid time hour" \/ e = EError "Invalid time format").
Proof.
  intros Date_parse this Hv.
  destruct (pre_save_validated Date_parse this Hv) as [Hok Herr].
  split; [|exact Herr].
  intros this' Hn. split; [|now apply Hok].
  now apply (recheck_after_validate Date_parse this this').
Qed.

(** X5 on the candidate record with the time "25:00". *)
Lemma validated_document_hook_witness :
  validate (new_Event (with_time (candidate (Some (js "A conference"))
                                    (Some [js "Talk 1"]))
                         (Some (js "25:00")))) = Ok tt
  /\ pre_save (host_Date_parse 0)
       (new_Event (with_time (candidate (Some (js "A conference"))
                                (Some [js "Talk 1"]))
                     (Some (js "25:00"))))
     = Throw (EError "Invalid time value").
Proof.
  assert (Hv : validate (new_Event (with_time (candidate (Some (js "A conference"))
                                                (Some [js "Talk 1"]))
                                      (Some (js "25:00")))) = Ok tt)
    by (vm_compute; reflexivity).
  split; [exact Hv|].
  destruct (validated_document_hook (host_Date_parse 0) _ Hv) as [_ Herr].
  destruct (pre_save (host_Date_parse 0) _) as [d|e] eqn:E;
    [vm_compute in E; discriminate|].
  destruct (Herr e eq_refl) as [-> | [-> | [-> | ->]]];
    try reflexivity; vm_compute in E; discriminate.
Defined.

(** X6. The errors [Event.create] can end with: a validation error that
    names at least one path, one of the four errors of the date and time
    normalisers, the duplicate key error of the slug index, or the fault
    of the server. *)
Theorem create_errors :
  forall (Date_parse : jsstring -> option Z) (fault : option exn)
         (unique_slug : bool) (data : IEvent) (events stored : list IEvent) (e : exn),
  Event_create Date_parse fault unique_slug data events = (Throw e, stored) ->
  (exists errors, errors <> [] /\ e = ValidationError errors)
  \/ e = EError "Invalid date format" \/ e = EError "Invalid time value"
  \/ e = EError "Invalid time hour" \/ e = EError "Invalid time format"
  \/ e = DuplicateKey "slug_1"
  \/ fault = Some e.
Proof.
  intros Date_parse fault unique_slug data events stored e.
  unfold Event_create, save.
  destruct (validate (new_Event data)) as [[]|err] eqn:Hv.
  - destruct (pre_save Date_parse (new_Event data)) as [d|err] eqn:Hp.
    + unfold insertOne. destruct fault as [f|].
      * intros E. inversion E; subst. tauto.
      * destruct (unique_slug && _); intros E; inversion E; subst. tauto.
    + intros E. inversion E; subst.
      destruct (pre_save_validated Date_parse _ Hv) as [_ Herr].
      destruct (Herr e Hp) as [-> | [-> | [-> | ->]]]; tauto.
  - intros E. inversion E; subst. left.
    unfold validate in Hv.
    destruct (validation_errors (new_Event data)) as [|x l];
      [discriminate|].
    inversion Hv. exists (x :: l). split; [discriminate | reflexivity].
Qed.

(** X6 on the candidate record with the time "13pm". *)
Lemma create_errors_witness :
  Event_create (host_Date_parse 0) None true
    (with_time (candidate (Some (js "A conference")) (Some [js "Talk 1"]))
       (Some (js "13pm"))) []
  = (Throw (EError "Invalid time hour"), []).
Proof.
  destruct (Event_create (host_Date_parse 0) None true
              (with_time (candidate (Some (js "A conference")) (Some [js "Talk 1"]))
                 (Some (js "13pm"))) []) as [[c|e] stored] eqn:E;
    [vm_compute in E; discriminate|].
  destruct (create_errors _ _ _ _ _ _ _ E)
    as [(errors & _ & ->) | [-> | [-> | [-> | [-> | [-> | H]]]]]];
    try (vm_compute in E; discriminate);
    vm_compute in E; inversion E; reflexivity.
Defined.

(** ** What is stored *)

Section Stored.

Lemma existsb_key key l : In key l -> existsb (String.eqb key) l = true.
Proof.
  intros H. apply existsb_exists. exists key. split; auto.
  apply String.eqb_refl.
Qed.

(** A path given in the payload is a modified path of the new document. *)
Lemma new_Event_modified data :
  (forall ti, title data = Some ti -> isModified (new_Event data) "title" = true)
  /\ (forall v, date data = Some v -> isModified (new_Event data) "date" = true)
  /\ (forall v, time data = Some v -> isModified (new_Event data) "time" = true).
Proof.
  unfold isModified, new_Event. cbn [modifiedPaths].
  repeat split; intros v E; rewrite E; apply existsb_key;
    cbn [present]; rewrite !in_app_iff; simpl; tauto.
Qed.

Lemma cast_some v x : cast_string v = Some x -> exists y, v = Some y /\ x = trim y.
Proof.
  destruct v as [y|]; simpl; intros E; inversion E. eauto.
Qed.

Lemma cleaned_entries a :
  forallb (fun v => (0 <? length (trim v))%nat) a = true ->
  Forall (fun x => x <> [] /\ trim x = x) (clean_entries a).
Proof.
  intros H. rewrite (clean_valid a H). apply Forall_forall.
  intros x Hin. apply in_map_iff in Hin. destruct Hin as (y & <- & Hy).
  rewrite forallb_forall in H. specialize (H y Hy).
  split; [|apply trim_idempotent].
  intros E. rewrite E in H. discriminate.
Qed.

Lemma valid_array_cleaned_entries v :
  arrayOfNonEmptyStrings v = true ->
  exists a, option_map clean_entries v = Some a
            /\ a <> [] /\ Forall (fun x => x <> [] /\ trim x = x) a.
Proof.
  intros H. pose proof (valid_array_cleaned v H) as Hne.
  destruct v as [a|]; [|discriminate]. simpl in *.
  apply andb_true_iff in H. destruct H as [_ H].
  exists (clean_entries a). split; [reflexivity|]. split.
  - intros E. rewrite E in Hne. discriminate.
  - now apply cleaned_entries.
Qed.

(** The document that a successful create hands to the write. *)
Lemma created_document Date_parse fault unique_slug data events c stored :
  Event_create Date_parse fault unique_slug data events = (Ok c, stored) ->
  stored = events ++ [c]
  /\ fault = None
  /\ validate (new_Event data) = Ok tt
  /\ exists d, pre_save Date_parse (new_Event data) = Ok d /\ c = paths d.
Proof.
  unfold Event_create, save.
  destruct (validate (new_Event data)) as [[]|err] eqn:Hv;
    [|intros E; discriminate E].
  destruct (pre_save Date_parse (new_Event data)) as [d|err] eqn:Hp;
    [|intros E; discriminate E].
  unfold insertOne. destruct fault; [intros E; discriminate E|].
  destruct (unique_slug && _); intros E; inversion E; subst.
  repeat split; auto. exists d. auto.
Qed.

End Stored.

(** X7. What a successful create stores is in normal form: the slug is
    the slug of the stored title; the date is a result of
    [normalizeDate]; the time is two digits, a colon and two digits, at
    most 23:59; agenda and tags are not empty and their entries are not
    empty and carry no white space at either end; every required string
    is filled in. *)
Theorem created_event_normal_form :
  forall (Date_parse : jsstring -> option Z) (fault : option exn)
         (unique_slug : bool) (data : IEvent) (events stored : list IEvent) (c : IEvent),
  Event_create Date_parse fault unique_slug data events = (Ok c, stored) ->
  (exists ti, title c = Some ti /\ slug c = Some (slugify ti))
  /\ (exists v out, normalizeDate Date_parse v = Ok out /\ date c = Some out)
  /\ (exists H M, (H <= 23 /\ M <= 59)%N
                  /\ time c = Some (two_digits H ++ colon :: two_digits M))
  /\ (exists a, agenda c = Some a /\ a <> []
                /\ Forall (fun x => x <> [] /\ trim x = x) a)
  /\ (exists a, tags c = Some a /\ a <> []
                /\ Forall (fun x => x <> [] /\ trim x = x) a)
  /\ Forall (fun key => nonEmptyString (get_string c key) = true) requiredStrings.
Proof.
  intros Date_parse fault unique_slug data events stored c E.
  apply created_document in E.
  destruct E as (_ & _ & Hv & d & Hp & ->).
  pose proof (validated_present _ Hv) as (ti & da & tm & Hti & Hda & Htm).
  pose proof (validate_ok _ Hv) as (_ & Hag & Htg).
  apply pre_save_ok in Hp. destruct Hp as (Hn & Hall & _ & _).
  apply normalise_paths in Hn.
  destruct Hn as (_ & s & dd & t & Hpaths & Hs & Hd & Ht).
  destruct (new_Event_modified data) as (Mti & Mda & Mtm).
  simpl in Hti, Hda, Htm.
  apply cast_some in Hti, Hda, Htm.
  destruct Hti as (ti0 & Eti & ->). destruct Hda as (da0 & Eda & ->).
  destruct Htm as (tm0 & Etm & ->).
  rewrite (Mti _ Eti) in Hs. rewrite (Mda _ Eda) in Hd.
  rewrite (Mtm _ Etm) in Ht. simpl in Hs.
  destruct Hs as (ti & Hti & ->).
  destruct Hd as (v & out & _ & Hout & ->).
  destruct Ht as (v' & out' & _ & Hout' & ->).
  destruct (valid_array_cleaned_entries _ Hag) as (a1 & Ea1 & Hne1 & Hall1).
  destruct (valid_array_cleaned_entries _ Htg) as (a2 & Ea2 & Hne2 & Hall2).
  split; [|split; [|split; [|split; [|split]]]].
  - exists ti. rewrite Hpaths. simpl. auto.
  - exists v, out. rewrite Hpaths. simpl. auto.
  - destruct (@normalizeTime_output v' out' Hout') as (H & M & Hb & ->).
    exists H, M. rewrite Hpaths. simpl. auto.
  - exists a1. rewrite Hpaths. simpl. auto.
  - exists a2. rewrite Hpaths. simpl. auto.
  - exact Hall.
Qed.

(** X7 on the candidate record. *)
Lemma created_event_normal_form_witness :
  exists c stored,
    Event_create (host_Date_parse 0) None true
      (candidate (Some (js " A conference ")) (Some [js " Talk 1 "])) []
    = (Ok c, stored)
    /\ exists ti, title c = Some ti /\ slug c = Some (slugify ti).
Proof.
  destruct (Event_create (host_Date_parse 0) None true
              (candidate (Some (js " A conference ")) (Some [js " Talk 1 "])) [])
    as [[c|e] stored] eqn:E; [|vm_compute in E; discriminate].
  exists c, stored. split; [reflexivity|].
  destruct (created_event_normal_form _ _ _ _ _ _ _ E) as [H _]. exact H.
Defined.

(** X10. A record that lacks a required string, or holds only white
    space there, is refused by the validation with an error that names the
    path, and nothing is stored. *)
Theorem missing_required_path_refused :
  forall (Date_parse : jsstring -> option Z) (fault : option exn)
         (unique_slug : bool) (data : IEvent) (events : list IEvent) (key : string),
  In key requiredStrings ->
  nonEmptyString (get_string data key) = false ->
  Event_create Date_parse fault unique_slug data events
  = (Throw (ValidationError (validation_errors (new_Event data))),
     events)
  /\ In (key, path_required key) (validation_errors (new_Event data)).
Proof.
  intros Date_parse fault unique_slug data events key Hkey Hblank.
  assert (Hcast : forall path message v,
            nonEmptyString v = false ->
            validate_string path message (cast_string v)
            = [(path, path_required path)]).
  { intros path message v H. unfold validate_string.
    assert (E : falsy (cast_string v) = true).
    { destruct v as [s|]; simpl in *; auto.
      destruct (trim s); [reflexivity | discriminate]. }
    now rewrite E. }
  assert (Hin : In (key, path_required key)
                  (validation_errors (new_Event data))).
  { apply validation_errors_spec.
    unfold validated_paths, new_Event.
    cbn [paths title description overview image venue location date time
         mode audience organizer agenda tags].
    unfold requiredStrings in Hkey. simpl in Hkey.
    repeat destruct Hkey as [<- | Hkey]; try contradiction;
      simpl in Hblank;
      match goal with
      | |- exists p, _ /\ In (?k, _) _ =>
          match type of Hblank with
          | nonEmptyString ?v = false =>
              eexists (string_path k _ (cast_string v))
          end
      end;
      (split; [find_path
              | cbn [path_errors string_path];
                rewrite (Hcast _ _ _ Hblank); left; reflexivity]). }
  split; [|exact Hin].
  apply create_invalid. intros E. rewrite E in Hin. contradiction.
Qed.

(** X10 on the candidate record with a blank description. *)
Lemma missing_required_path_refused_witness :
  In ("description", path_required "description")%string
     (validation_errors
        (new_Event (candidate (Some (js "  ")) (Some [js "Talk 1"])))).
Proof.
  destruct (missing_required_path_refused (host_Date_parse 0) None true
              (candidate (Some (js "  ")) (Some [js "Talk 1"])) []
              "description"%string) as [_ H].
  - right; left; reflexivity.
  - reflexivity.
  - exact H.
Defined.

(** ** The connection across requests *)

Section Reuse.
Import Mongodb.

Lemma nth_error_update pid st l x :
  nth_error l pid = Some x -> nth_error (update pid st l) pid = Some st.
Proof.
  revert pid. induction l as [|y l IH]; intros [|pid]; simpl;
    try discriminate; auto.
Qed.

Lemma settle_not_pending pid outcome k :
  nth_error (promises (settle pid outcome k)) pid <> Some Pending.
Proof.
  unfold settle. destruct (nth_error (promises k) pid) as [[|m|e]|] eqn:E;
    simpl; try (rewrite E; discriminate).
  rewrite (nth_error_update pid _ _ _ E). destruct outcome; discriminate.
Qed.

Lemma settle_settled pid outcome k :
  nth_error (promises k) pid <> Some Pending -> settle pid outcome k = k.
Proof.
  unfold settle. destruct (nth_error (promises k) pid) as [[|m|e]|];
    auto. intros H. contradiction H. reflexivity.
Qed.

Lemma settle_cached pid outcome k : cached (settle pid outcome k) = cached k.
Proof.
  unfold settle. destruct (nth_error (promises k) pid) as [[|m|e]|];
    reflexivity.
Qed.

(** A second call repeats the answer of the first and changes nothing. *)
Lemma connectToDatabase_again outcome outcome' k :
  connectToDatabase outcome' (snd (connectToDatabase outcome k))
  = connectToDatabase outcome k.
Proof.
  unfold connectToDatabase at 2 3.
  destruct (conn (cached k)) as [m|] eqn:Ec.
  - simpl. unfold connectToDatabase. now rewrite Ec.
  - destruct (ensure_promise k) as [k1 pid] eqn:Ee.
    assert (Hk1 : conn (cached k1) = None /\ promise (cached k1) = Some pid).
    { unfold ensure_promise in Ee.
      destruct (promise (cached k)) as [pid'|] eqn:Ep;
        inversion Ee; subst; simpl; auto. }
    destruct Hk1 as [Hc1 Hp1].
    set (k2 := settle pid outcome k1).
    assert (Hc2 : cached k2 = cached k1) by apply settle_cached.
    pose proof (settle_not_pending pid outcome k1) as Hnp. fold k2 in Hnp.
    assert (Hagain : ensure_promise k2 = (k2, pid)).
    { unfold ensure_promise. now rewrite Hc2, Hp1. }
    destruct (nth_error (promises k2) pid) as [[|m|e]|] eqn:En; simpl.
    + contradiction Hnp. reflexivity.
    + unfold connectToDatabase. reflexivity.
    + unfold connectToDatabase. rewrite Hc2, Hc1, Hagain.
      rewrite (settle_settled pid outcome' k2) by (rewrite En; discriminate).
      now rewrite En.
    + unfold connectToDatabase. rewrite Hc2, Hc1, Hagain.
      rewrite (settle_settled pid outcome' k2) by (rewrite En; discriminate).
      now rewrite En.
Qed.

Lemma POST_connection env request w :
  connection (snd (POST env request w))
  = snd (connectToDatabase (connect_outcome env) (connection w)).
Proof.
  unfold POST.
  destruct (connectToDatabase _ _) as [[m|e] k]; simpl; auto.
  destruct (read_body request) as [[r|data]|e]; simpl; auto.
  destruct (Event_create _ _ _ data (events w)) as [[c|e] evs]; reflexivity.
Qed.

Lemma GET_connection env w :
  connection (snd (GET env w))
  = snd (connectToDatabase (connect_outcome env) (connection w)).
Proof.
  unfold GET. destruct (connectToDatabase _ _) as [c k]. simpl.
  destruct (bind c _); reflexivity.
Qed.

Lemma GET_slug_connection env p w :
  connection (snd (GET_slug env p w))
  = snd (connectToDatabase (connect_outcome env) (connection w)).
Proof.
  unfold GET_slug. destruct (connectToDatabase _ _) as [c k]. simpl.
  destruct (bind c _) as [[e|]|]; reflexivity.
Qed.

End Reuse.

(** X11. What the first request met when it connected, every later
    request meets again, whatever has become of the database: a handle is
    reused, and a failed attempt is never made again, its error is
    thrown anew. *)
Theorem connection_outcome_is_kept :
  forall (env env' : Env) (request : NextRequest) (params_slug : jsstring)
         (w : World),
  connected env' (snd (POST env request w)) = connected env w
  /\ connected env' (snd (GET env w)) = connected env w
  /\ connected env' (snd (GET_slug env params_slug w)) = connected env w
  /\ connection (snd (POST env' request (snd (POST env request w))))
     = connection (snd (POST env request w)).
Proof.
  intros env env' request p w. unfold connected.
  rewrite !POST_connection, GET_connection, GET_slug_connection.
  rewrite !connectToDatabase_again. auto.
Qed.

(** X12. Once the attempt has been rejected it stays rejected, however
    the calls go on: the cache never holds a handle and no call ever
    returns one. *)
Theorem rejected_attempt_is_final :
  forall (uri : jsstring) (k0 : Mongodb.Connection) (p q : Mongodb.Process)
         (e : exn),
  Mongodb.load (Some uri) None = Ok k0 ->
  Mongodb.steps (Mongodb.start k0) p ->
  Mongodb.promises (Mongodb.mem p) = [Mongodb.Rejected e] ->
  Mongodb.steps p q ->
  Mongodb.promises (Mongodb.mem q) = [Mongodb.Rejected e]
  /\ Mongodb.conn (Mongodb.cached (Mongodb.mem q)) = None
  /\ (forall c m, ~ In (c, Ok m) (Mongodb.returned q)).
Proof.
  intros uri k0 p q e Hload Hp Hrej Hq.
  pose proof (MongodbFacts.invariant_steps
                (MongodbFacts.invariant_start _ Hload) Hp) as Hinv.
  assert (H : Mongodb.invariant q
              /\ Mongodb.promises (Mongodb.mem q) = [Mongodb.Rejected e]).
  { induction Hq as [|p q r Hq IH Hst]; [auto|].
    destruct (IH Hp Hrej Hinv) as [Hiq Hrq].
    split; [eapply MongodbFacts.invariant_step; eauto|].
    destruct Hiq as (Hprom & _).
    destruct Hst as [c m q Hconn | c q Hconn | pid outcome q Hpid
                    | c pid m l1 l2 q Haw Hpid | c pid e' l1 l2 q Haw Hpid];
      simpl; auto.
    - unfold Mongodb.ensure_promise.
      destruct (Mongodb.promise (Mongodb.cached (Mongodb.mem q))); auto.
      destruct Hprom as [Hnil _]. rewrite Hnil in Hrq. discriminate.
    - rewrite Hrq in Hpid. destruct pid as [|[|pid]]; discriminate. }
  destruct H as [(_ & _ & Hc & Hr) Hrq].
  assert (Hnone : Mongodb.conn (Mongodb.cached (Mongodb.mem q)) = None).
  { destruct (Mongodb.conn (Mongodb.cached (Mongodb.mem q))) as [m|] eqn:E; auto.
    specialize (Hc m eq_refl). rewrite Hc in Hrq. discriminate. }
  repeat split; auto.
  intros c m Hin. apply Hr in Hin. congruence.
Qed.

(** X12 on a run in which the attempt fails: two callers, both get the
    error. *)
Lemma rejected_attempt_is_final_witness :
  Mongodb.steps (Mongodb.start (connection fresh_world)) rejected_process
  /\ Mongodb.steps rejected_process rejected_process_later
  /\ Mongodb.conn (Mongodb.cached (Mongodb.mem rejected_process_later)) = None.
Proof.
  assert (H1 : Mongodb.steps (Mongodb.start (connection fresh_world))
                 rejected_process).
  { eapply steps_first; [apply (@Mongodb.step_miss 1%nat); reflexivity|]. simpl.
    eapply steps_first;
      [apply (@Mongodb.step_settle 0%nat
                (Throw (DriverError "connect ECONNREFUSED 127.0.0.1:27017")));
       reflexivity|].
    apply Mongodb.steps_refl. }
  assert (H2 : Mongodb.steps rejected_process rejected_process_later).
  { eapply steps_first;
      [apply (@Mongodb.step_reject 1%nat 0%nat
                (DriverError "connect ECONNREFUSED 127.0.0.1:27017") [] []);
       reflexivity|]. simpl.
    eapply steps_first; [apply (@Mongodb.step_miss 2%nat); reflexivity|]. simpl.
    eapply steps_first;
      [apply (@Mongodb.step_reject 2%nat 0%nat
                (DriverError "connect ECONNREFUSED 127.0.0.1:27017") [] []);
       reflexivity|].
    apply Mongodb.steps_refl. }
  split; [exact H1|]. split; [exact H2|].
  destruct (rejected_attempt_is_final
              (js "mongodb://localhost:27017/app") (connection fresh_world)
              rejected_process rejected_process_later
              (DriverError "connect ECONNREFUSED 127.0.0.1:27017")
              eq_refl H1 eq_refl H2) as (_ & Hnone & _).
  exact Hnone.
Defined.

(** ** Creating, then reading *)

Section RoundTrip.

Lemma find_app (f : IEvent -> bool) l1 l2 :
  find f (l1 ++ l2)
  = match find f l1 with
    | Some x => Some x
    | None => find f l2
    end.
Proof.
  induction l1 as [|x l1 IH]; simpl; auto. destruct (f x); auto.
Qed.

(** The query for the slug of a document stored last finds a stored
    document with that slug, the first one: the document itself when no
    earlier one has its slug. *)
Lemma find_created c (events : list IEvent) p :
  slug c = Some p ->
  exists d,
    find (fun x => same_slug (slug x) (Some p)) (events ++ [c]) = Some d
    /\ slug d = Some p
    /\ In d (events ++ [c])
    /\ ((forall x, In x events -> slug x <> Some p) -> d = c).
Proof.
  intros Hp. rewrite find_app.
  destruct (find (fun x => same_slug (slug x) (Some p)) events) as [x|] eqn:E.
  - exists x. apply find_some in E. destruct E as [Hin Hs].
    apply same_slug_eq in Hs. repeat split; auto.
    + apply in_or_app. auto.
    + intros Hnone. exfalso. apply (Hnone x Hin Hs).
  - exists c. simpl. rewrite Hp.
    assert (Es : same_slug (Some p) (Some p) = true) by now apply same_slug_eq.
    rewrite Es. repeat split; auto.
    apply in_or_app. right. left. reflexivity.
Qed.

Lemma created_slug Date_parse fault unique_slug data events c stored :
  Event_create Date_parse fault unique_slug data events = (Ok c, stored) ->
  exists ti, title c = Some ti /\ slug c = Some (slugify ti).
Proof.
  intros E. apply created_document in E.
  destruct E as (_ & _ & Hv & d & Hp & ->).
  pose proof (validated_present _ Hv) as (ti & _ & _ & Hti & _).
  apply pre_save_ok in Hp. destruct Hp as (Hn & _).
  apply normalise_paths in Hn.
  destruct Hn as (_ & s & dd & t & Hpaths & Hs & _).
  destruct (new_Event_modified data) as (Mti & _).
  simpl in Hti. apply cast_some in Hti. destruct Hti as (ti0 & Eti & ->).
  rewrite (Mti _ Eti) in Hs. simpl in Hs. destruct Hs as (ti & Hti & ->).
  exists ti. rewrite Hpaths. simpl. auto.
Qed.

Lemma connect_ok_cached outcome k m :
  fst (Mongodb.connectToDatabase outcome k) = Ok m ->
  forall outcome',
    fst (Mongodb.connectToDatabase outcome'
           (snd (Mongodb.connectToDatabase outcome k))) = Ok m.
Proof.
  intros E outcome'. now rewrite connectToDatabase_again.
Qed.

(** What a 201 means. *)
Lemma POST_created_cases env request w :
  status (fst (POST env request w)) = 201%N ->
  exists m data c,
    connected env w = Ok m
    /\ Event_create (Date_parse env) (fault env) (slug_index env) data (events w)
       = (Ok c, events (snd (POST env request w)))
    /\ fst (POST env request w)
       = {| status := 201; body := Created "Event created successfully" c |}.
Proof.
  pose proof (read_body_cases request) as Hread. cbv zeta in Hread.
  unfold connected, POST.
  destruct (Mongodb.connectToDatabase _ _) as [[m|e] k]; simpl;
    [|discriminate].
  destruct (read_body request) as [[r|data]|e]; simpl; [| |discriminate].
  - destruct Hread as [_ [[Hs _] | (Hs & _)]]; rewrite Hs; discriminate.
  - destruct (Event_create _ _ _ data (events w)) as [[c|e] stored] eqn:E;
      simpl; [|discriminate].
    intros _. exists m, data, c. auto.
Qed.

End RoundTrip.

(** X13. After a 201 the created event can be read back.  It is stored
    last, and the handler of the slug, asked for the slug of the created
    document, answers 200 with a stored document of that slug, as long
    as the query goes through; it is the created document itself when no
    event stored before has that slug.  No new connection is needed:
    the handle of the create request is reused, whatever the database
    would answer to a new attempt. *)
Theorem created_event_is_served :
  forall (env env' : Env) (request : NextRequest) (w : World),
  status (fst (POST env request w)) = 201%N ->
  exists c p,
    fst (POST env request w)
    = {| status := 201; body := Created "Event created successfully" c |}
    /\ slug c = Some p
    /\ events (snd (POST env request w)) = events w ++ [c]
    /\ (fault env' = None ->
        exists d,
          fst (GET_slug env' p (snd (POST env request w)))
          = {| status := 200; body := OneEvent d |}
          /\ slug d = Some p
          /\ In d (events w ++ [c])
          /\ ((forall x, In x (events w) -> slug x <> Some p) -> d = c)).
Proof.
  intros env env' request w H201.
  destruct (POST_created_cases env request w H201)
    as (m & data & c & Hconn & Hcreate & Hresp).
  destruct (created_slug _ _ _ _ _ _ _ Hcreate) as (ti & _ & Hslug).
  pose proof (created_document _ _ _ _ _ _ _ Hcreate) as (Hstored & _).
  assert (Hconn' : connected env' (snd (POST env request w)) = Ok m).
  { unfold connected in *. rewrite POST_connection.
    now apply connect_ok_cached. }
  exists c, (slugify ti). split; [exact Hresp|]. split; [exact Hslug|].
  split; [exact Hstored|].
  intros Hf.
  destruct (find_created c (events w) (slugify ti) Hslug)
    as (d & Hfind & Hd & Hin & Hsame).
  exists d. split; [|auto].
  rewrite GET_slug_response, Hconn'.
  unfold Event_findOne. now rewrite Hf, Hstored, Hfind.
Qed.

(** X13 on the candidate record, read back while the database cannot be
    reached any more. *)
Lemma created_event_is_served_witness :
  exists c,
    fst (POST reachable_env
           (json_request (candidate (Some (js "A conference")) (Some [js "Talk 1"])))
           fresh_world)
    = {| status := 201; body := Created "Event created successfully" c |}
    /\ fst (GET_slug unreachable_env (js "cloud-next-2026")
              (snd (POST reachable_env
                      (json_request (candidate (Some (js "A conference"))
                                       (Some [js "Talk 1"])))
                      fresh_world)))
       = {| status := 200; body := OneEvent c |}.
Proof.
  destruct (created_event_is_served reachable_env unreachable_env
              (json_request (candidate (Some (js "A conference")) (Some [js "Talk 1"])))
              fresh_world) as (c & p & Hresp & Hslug & _ & Hget).
  - vm_compute. reflexivity.
  - exists c. split; [exact Hresp|].
    assert (Hp : p = js "cloud-next-2026").
    { assert (Hc : c = with_time (with_date (with_slug
                         (candidate (Some (js "A conference")) (Some [js "Talk 1"]))
                         (Some (js "cloud-next-2026"))) (Some (js "2026-03-05")))
                         (Some (js "09:00"))).
      { vm_compute in Hresp. inversion Hresp. reflexivity. }
      rewrite Hc in Hslug. simpl in Hslug. inversion Hslug. reflexivity. }
    rewrite <- Hp.
    destruct (Hget eq_refl) as (d & Hd & _ & _ & Hsame).
    rewrite Hd, (Hsame (fun x (H : In x []) => False_ind _ H)).
    reflexivity.
Defined.

(** ** The listing page *)

(** X14. The page never shows a card: the handler it fetches from answers
    with one document or with an error object, never with an array,
    whatever the slug in the address, and the page shows cards for the
    elements of an array only.  Loading the page changes no stored
    event. *)
Theorem page_shows_no_card :
  forall (env : Env) (w : World),
  fst (Page env w) = []
  /\ events (snd (Page env w)) = events w
  /\ (forall p l, body (fst (GET_slug env p w)) <> Events l)
  /\ (forall p, cards (fetched_events (fst (GET_slug env p w))) = []).
Proof.
  intros env w.
  assert (Hbody : forall p l, body (fst (GET_slug env p w)) <> Events l).
  { intros p l. rewrite GET_slug_response.
    destruct (connected env w); [|discriminate].
    destruct (Event_findOne _ _ _) as [[e|]|]; discriminate. }
  assert (Hcards : forall p,
            cards (fetched_events (fst (GET_slug env p w))) = []).
  { intros p. unfold fetched_events.
    destruct (ok _); [|reflexivity].
    specialize (Hbody p).
    destruct (body (fst (GET_slug env p w))) as [l| | | | | |];
      try reflexivity.
    contradiction (Hbody l). reflexivity. }
  split; [|split; [|split]]; auto.
  - unfold Page. specialize (Hcards (js "cloud-next-2026")).
    destruct (GET_slug env (js "cloud-next-2026") w) as [response w'].
    exact Hcards.
  - unfold Page.
    pose proof (GET_slug_world env (js "cloud-next-2026") w) as H.
    destruct (GET_slug env (js "cloud-next-2026") w) as [response w'].
    exact H.
Qed.

(** ** The content type *)

Section ContentType.

Lemma starts_with_spec sub : forall s,
  starts_with sub s = true <-> exists post, s = sub ++ post.
Proof.
  induction sub as [|a sub IH]; intros s; simpl.
  - split; eauto.
  - destruct s as [|b s].
    + split; [discriminate | intros [post E]; discriminate E].
    + rewrite andb_true_iff, N.eqb_eq, IH. split.
      * intros [-> [post ->]]. eauto.
      * intros [post E]. inversion E; subst. eauto.
Qed.

Lemma includes_spec sub s :
  includes s sub = true <-> exists pre post, s = pre ++ sub ++ post.
Proof.
  induction s as [|c s IH]; simpl.
  - rewrite orb_false_r, starts_with_spec. split.
    + intros [post E]. exists [], post. exact E.
    + intros (pre & post & E). symmetry in E.
      apply app_eq_nil in E. destruct E as [-> E].
      apply app_eq_nil in E. destruct E as [-> ->]. exists []. reflexivity.
  - rewrite orb_true_iff, starts_with_spec, IH. split.
    + intros [[post E] | (pre & post & E)].
      * exists [], post. exact E.
      * exists (c :: pre), post. simpl. now rewrite E.
    + intros (pre & post & E). destruct pre as [|x pre].
      * left. exists post. exact E.
      * right. inversion E; subst. eauto.
Qed.

End ContentType.

(** X15. The content type is matched by inclusion and JSON comes first:
    whenever the header contains [application/json] anywhere, the body is
    read as JSON, also when the header names multipart form data as well;
    the answer is then never 415 and never 400.  A header is taken for
    JSON or for a form exactly when it contains the one or the other
    text. *)
Theorem content_type_by_inclusion :
  forall (env : Env) (request : NextRequest) (w : World)
         (m : Mongodb.Mongoose) (pre post : jsstring),
  connected env w = Ok m ->
  content_type request = Some (pre ++ js "application/json" ++ post) ->
  fst (POST env request w)
  = match json request with
    | Throw err =>
        {| status := 500;
           body := Internal "Internal server error" (message_of err) |}
    | Ok data =>
        match fst (Event_create (Date_parse env) (fault env) (slug_index env) data (events w)) with
        | Ok c =>
            {| status := 201; body := Created "Event created successfully" c |}
        | Throw err =>
            {| status := 500;
               body := Internal "Internal server error" (message_of err) |}
        end
    end
  /\ status (fst (POST env request w)) <> 415%N
  /\ status (fst (POST env request w)) <> 400%N
  /\ (forall h sub, includes h sub = true <-> exists a b, h = a ++ sub ++ b).
Proof.
  intros env request w m pre post Hc Hct.
  assert (Hj : includes (header_or_empty (content_type request))
                 (js "application/json") = true).
  { rewrite Hct. apply includes_spec. exists pre, post. reflexivity. }
  assert (E : fst (POST env request w)
              = match json request with
                | Throw err => internal_error err
                | Ok data =>
                    match fst (Event_create (Date_parse env) (fault env) (slug_index env) data
                                 (events w)) with
                    | Ok c =>
                        {| status := 201;
                           body := Created "Event created successfully" c |}
                    | Throw err => internal_error err
                    end
                end).
  { rewrite (POST_connected env request w Hc). unfold read_body.
    cbv zeta. rewrite Hj. unfold bind.
    destruct (json request); reflexivity. }
  split; [exact E|]. rewrite E.
  split; [|split; [|intros h sub; apply includes_spec]].
  - destruct (json request) as [data|err]; [|discriminate].
    destruct (fst (Event_create _ _ _ data (events w))); discriminate.
  - destruct (json request) as [data|err]; [|discriminate].
    destruct (fst (Event_create _ _ _ data (events w))); discriminate.
Qed.

(** X15 on a request of type [application/json; charset=utf-8]. *)
Lemma content_type_by_inclusion_witness :
  status (fst (POST reachable_env
                 (json_request (candidate (Some (js "A conference"))
                                  (Some [js "Talk 1"])))
                 fresh_world)) <> 415%N.
Proof.
  destruct (content_type_by_inclusion reachable_env
              (json_request (candidate (Some (js "A conference"))
                               (Some [js "Talk 1"])))
              fresh_world 1%N [] (js "; charset=utf-8") eq_refl eq_refl)
    as (_ & H & _).
  exact H.
Defined.
